(** * seqan3::views::minimiser -- a shallow embedding of
      include/seqan3/search/views/minimiser.hpp

    The view slides a window of [window_size] values over one range (or over
    two ranges advanced in lockstep) and yields the window minimum each time
    the tracked minimiser changes.

    Modelling choices.
    - [value_type] is instantiated at unsigned integers ([N]), the result type
      of seqan3::kmer_hash; the code only uses [<], [<=] and [std::min] on it.
    - An underlying range is a [list value_type]; an iterator into it is the
      position it points at, the past-the-end iterator being the length.
    - [size_t] quantities (window size, offsets) are [nat]: every subtraction
      in the source is guarded ([window_size - 1u] behind [window_size == 0u],
      [--minimiser_position_offset] behind [minimiser_position_offset == 0],
      [size() - 1] after a [push_back]), so no wrap-around is reachable.
    - [std::deque<value_type>] is a [list] with the front at the head.
    - A range handed to a constructor is a [range_argument]: its elements
      and whether a move leaves them in place ([ref_view]) or takes them
      ([owning_view]); the constructors read their parameters after moving
      from them.
    - Outcomes are explicit: a C++ exception is [Raise], a violated library
      precondition (dereferencing or advancing a past-the-end iterator,
      [pop_front] on an empty deque) is [Undefined]. The two loops that are
      not structural ([while (!next_minimiser())] and the traversal from
      [begin()] to [end()]) carry a bound on their rounds; [OutOfFuel] marks
      an exhausted bound and is proved never to occur.
    - The three lines [min_element] / [minimiser_value = ...] /
      [minimiser_position_offset = ...], which the header repeats in
      [window_first] and [next_minimiser], are the function [rescan]. *)

From Stdlib Require Import String.
From Stdlib Require Import List Arith NArith Bool Lia Sorted.
Import ListNotations.

(* ------------------------------------------------------------------------- *)
(** ** Outcomes *)

Inductive exn : Type :=
| invalid_argument (what : string).

Inductive result (A : Type) : Type :=
| Ok (a : A)
| Raise (e : exn)
| Undefined
| OutOfFuel.

Arguments Ok {A} a.
Arguments Raise {A} e.
Arguments Undefined {A}.
Arguments OutOfFuel {A}.

Definition bind {A B : Type} (r : result A) (k : A -> result B) : result B :=
  match r with
  | Ok a => k a
  | Raise e => Raise e
  | Undefined => Undefined
  | OutOfFuel => OutOfFuel
  end.

Notation "x <- r ;; k" := (bind r (fun x => k))
  (at level 61, r at next level, right associativity).

Definition is_raise {A : Type} (r : result A) : bool :=
  match r with Raise _ => true | _ => false end.

Definition is_out_of_fuel {A : Type} (r : result A) : bool :=
  match r with OutOfFuel => true | _ => false end.

(* ------------------------------------------------------------------------- *)
(** ** Values, ranges and the standard algorithms the header calls *)

Definition value_type : Type := N.

(** [*it] on a range: undefined at or beyond the end. *)
Definition deref (r : list value_type) (pos : nat) : result value_type :=
  match nth_error r pos with
  | Some x => Ok x
  | None => Undefined
  end.

(** [++it] on a range iterator: undefined on a past-the-end iterator. *)
Definition incr (r : list value_type) (pos : nat) : result nat :=
  if pos <? length r then Ok (S pos) else Undefined.

(** [std::min(a, b)]: [b] if [b < a], else [a]. *)
Definition std_min (a b : value_type) : value_type :=
  if N.ltb b a then b else a.

(** [std::less_equal<value_type>{}]. *)
Definition less_equal (a b : value_type) : bool := N.leb a b.

(** [std::ranges::min_element(r, comp)]: the usual single pass,

    an empty range yields its end; otherwise the first position is the
    initial candidate, and every later position [p] replaces the candidate
    [s] exactly when [comp (elem p) (elem s)] holds.

    [min_element_from comp rest pos best_pos best] is the loop, [pos] being
    the index of the head of [rest]. The result is an index into the range
    (the end index [0] for the empty range). *)
Fixpoint min_element_from (comp : value_type -> value_type -> bool)
    (rest : list value_type) (pos best_pos : nat) (best : value_type) : nat :=
  match rest with
  | [] => best_pos
  | x :: rest' =>
      if comp x best
      then min_element_from comp rest' (S pos) pos x
      else min_element_from comp rest' (S pos) best_pos best
  end.

Definition min_element (comp : value_type -> value_type -> bool)
    (r : list value_type) : nat :=
  match r with
  | [] => 0
  | x :: rest => min_element_from comp rest 1 0 x
  end.

(** [std::deque::pop_front]: undefined on an empty deque. *)
Definition pop_front (d : list value_type) : result (list value_type) :=
  match d with
  | [] => Undefined
  | _ :: d' => Ok d'
  end.

Definition push_back (d : list value_type) (x : value_type) : list value_type :=
  d ++ [x].

(* ------------------------------------------------------------------------- *)
(** ** minimiser_view *)

(** [urange2 = None] is the default [std::ranges::empty_view], that is
    [second_range_is_given == false]. *)
Record minimiser_view : Type := Build_view {
  urange1 : list value_type;
  urange2 : option (list value_type);
  window_size : nat
}.

Definition second_range_is_given (v : minimiser_view) : bool :=
  match urange2 v with Some _ => true | None => false end.

Definition sizes_differ : string := "The two ranges do not have the same size."%string.
Definition window_invalid : string :=
  "The chosen window_size is not valid. Please choose a value greater than 1 or use two ranges."%string.

(** How a constructor receives a range. The member initialisers move from
    the constructor parameters ([urange1{std::move(urange1)}], or
    [std::views::all(std::forward<...>(urange1))] in the overloads for
    non-views), and the body then reads the parameters again: inside the
    constructor the names [urange1] and [urange2] denote the parameters,
    which hide the members. A view whose move is a copy
    ([std::ranges::ref_view], what [std::views::all] makes of an lvalue)
    still shows its elements afterwards; a range that owns its elements
    (a temporary container, [std::ranges::owning_view]) is left empty. *)
Inductive view_kind : Type :=
| ref_view
| owning_view.

Record range_argument : Type := Build_range {
  elements : list value_type;
  kind : view_kind
}.

(** What the parameter shows once the member has been initialised from it. *)
Definition moved_from (a : range_argument) : list value_type :=
  match kind a with
  | ref_view => elements a
  | owning_view => []
  end.

(** The three-argument constructors. The members take the elements; the size
    check, compiled in only when a second range is given, compares the
    distances of the two parameters after the move. *)
Definition minimiser_view_ctor_moved (a1 : range_argument)
    (a2 : option range_argument) (w : nat) : result minimiser_view :=
  match a2 with
  | Some a2' =>
      if negb (length (moved_from a1) =? length (moved_from a2'))
      then Raise (invalid_argument sizes_differ)
      else Ok (Build_view (elements a1) (Some (elements a2')) w)
  | None => Ok (Build_view (elements a1) None w)
  end.

Definition as_ref_view (r : list value_type) : range_argument :=
  Build_range r ref_view.

(** The three-argument constructor on ranges that a move leaves intact
    (views of lvalue containers, the use the documentation shows): there
    the check compares the lengths of the two ranges. *)
Definition minimiser_view_ctor (r1 : list value_type)
    (r2 : option (list value_type)) (w : nat) : result minimiser_view :=
  minimiser_view_ctor_moved (as_ref_view r1) (option_map as_ref_view r2) w.

(** [minimiser_view(urange1, window_size)] delegates with the default range. *)
Definition minimiser_view_single (r1 : list value_type) (w : nat)
  : result minimiser_view :=
  minimiser_view_ctor r1 None w.

Definition minimiser_view_dual (r1 r2 : list value_type) (w : nat)
  : result minimiser_view :=
  minimiser_view_ctor r1 (Some r2) w.

(** [minimiser_fn::operator()(urange1, window_size)], the adaptor behind
    [seqan3::views::minimiser]. *)
Definition minimiser_fn (r1 : list value_type) (w : nat) : result minimiser_view :=
  if w =? 1
  then Raise (invalid_argument window_invalid)
  else minimiser_view_single r1 w.

(* ------------------------------------------------------------------------- *)
(** ** minimiser_view::basic_iterator *)

Record basic_iterator : Type := Build_iterator {
  minimiser_value : value_type;
  minimiser_position_offset : nat;
  urng1_iterator : nat;
  urng1_sentinel : nat;
  urng2_iterator : nat;
  window_values : list value_type
}.

Definition set_urng_iterators (it : basic_iterator) (p1 p2 : nat) : basic_iterator :=
  Build_iterator (minimiser_value it) (minimiser_position_offset it)
    p1 (urng1_sentinel it) p2 (window_values it).

Definition set_window_values (it : basic_iterator) (d : list value_type)
  : basic_iterator :=
  Build_iterator (minimiser_value it) (minimiser_position_offset it)
    (urng1_iterator it) (urng1_sentinel it) (urng2_iterator it) d.

Definition set_minimiser (it : basic_iterator) (x : value_type) (off : nat)
  : basic_iterator :=
  Build_iterator x off
    (urng1_iterator it) (urng1_sentinel it) (urng2_iterator it) (window_values it).

(** The converting constructor (mutable to const iterator). It copies every
    member except [minimiser_position_offset], which keeps its default. *)
Definition basic_iterator_convert (it : basic_iterator) : basic_iterator :=
  Build_iterator (minimiser_value it) 0
    (urng1_iterator it) (urng1_sentinel it) (urng2_iterator it) (window_values it).

Section Iterator.

(** The view whose ranges the iterator points into. *)
Variable v : minimiser_view.

Definition window_value (it : basic_iterator) : result value_type :=
  match urange2 v with
  | None => deref (urange1 v) (urng1_iterator it)
  | Some r2 =>
      a <- deref (urange1 v) (urng1_iterator it) ;;
      b <- deref r2 (urng2_iterator it) ;;
      Ok (std_min a b)
  end.

Definition advance_window (it : basic_iterator) : result basic_iterator :=
  p1 <- incr (urange1 v) (urng1_iterator it) ;;
  match urange2 v with
  | None => Ok (set_urng_iterators it p1 (urng2_iterator it))
  | Some r2 =>
      p2 <- incr r2 (urng2_iterator it) ;;
      Ok (set_urng_iterators it p1 p2)
  end.

(** The body of [min_element] + the two assignments that follow it. *)
Definition rescan (it : basic_iterator) : result basic_iterator :=
  let minimiser_it := min_element less_equal (window_values it) in
  x <- deref (window_values it) minimiser_it ;;
  Ok (set_minimiser it x minimiser_it).

(** The [for] loop of [window_first], [n] iterations left. *)
Fixpoint window_first_loop (n : nat) (it : basic_iterator) : result basic_iterator :=
  match n with
  | 0 => Ok it
  | S n' =>
      x <- window_value it ;;
      it1 <- advance_window (set_window_values it (push_back (window_values it) x)) ;;
      window_first_loop n' it1
  end.

Definition window_first (window_size : nat) (it : basic_iterator)
  : result basic_iterator :=
  if window_size =? 0 then Ok it
  else
    it1 <- window_first_loop (window_size - 1) it ;;
    x <- window_value it1 ;;
    rescan (set_window_values it1 (push_back (window_values it1) x)).

(** The constructor taking the range iterators and the window size. *)
Definition basic_iterator_ctor (p1 s1 p2 : nat) (window_size : nat)
  : result basic_iterator :=
  let size := s1 - p1 in
  let window_size := Nat.min window_size size in
  window_first window_size (Build_iterator 0%N 0 p1 s1 p2 []).

(** Returns the flag of the source together with the updated iterator. *)
Definition next_minimiser (it : basic_iterator) : result (bool * basic_iterator) :=
  it1 <- advance_window it ;;
  if urng1_iterator it1 =? urng1_sentinel it1 then Ok (true, it1)
  else
    new_value <- window_value it1 ;;
    d <- pop_front (window_values it1) ;;
    let it2 := set_window_values it1 (push_back d new_value) in
    if minimiser_position_offset it2 =? 0 then
      it3 <- rescan it2 ;;
      Ok (true, it3)
    else if N.ltb new_value (minimiser_value it2) then
      Ok (true, set_minimiser it2 new_value (length (window_values it2) - 1))
    else
      Ok (false, set_minimiser it2 (minimiser_value it2)
                   (minimiser_position_offset it2 - 1)).

(** [while (!next_minimiser()) {}], with an explicit bound on the number
    of rounds. *)
Fixpoint next_unique_minimiser_loop (fuel : nat) (it : basic_iterator)
  : result basic_iterator :=
  match fuel with
  | 0 => OutOfFuel
  | S fuel' =>
      r <- next_minimiser it ;;
      if fst r then Ok (snd r) else next_unique_minimiser_loop fuel' (snd r)
  end.

(** Every round moves [urng1_iterator] one step towards the end of
    [urange1], so this many rounds always suffice (see
    [next_unique_minimiser_total]). *)
Definition next_unique_minimiser (it : basic_iterator) : result basic_iterator :=
  next_unique_minimiser_loop (S (length (urange1 v) - urng1_iterator it)) it.

(** [operator++()]. *)
Definition operator_inc (it : basic_iterator) : result basic_iterator :=
  next_unique_minimiser it.

(** [operator++(int)]: the copy taken before the step, and the iterator. *)
Definition operator_post_inc (it : basic_iterator)
  : result (basic_iterator * basic_iterator) :=
  it' <- next_unique_minimiser it ;;
  Ok (it, it').

(** [minimiser_view::begin()]. *)
Definition begin : result basic_iterator :=
  basic_iterator_ctor 0 (length (urange1 v)) 0 (window_size v).

End Iterator.

(** [operator*]. *)
Definition operator_deref (it : basic_iterator) : value_type :=
  minimiser_value it.

(** [operator==(basic_iterator, basic_iterator)], as written. *)
Definition operator_eq (lhs rhs : basic_iterator) : bool :=
  (urng1_iterator lhs =? urng1_iterator rhs)
  && (urng2_iterator rhs =? urng2_iterator rhs)
  && (length (window_values lhs) =? length (window_values rhs)).

Definition operator_neq (lhs rhs : basic_iterator) : bool :=
  negb (operator_eq lhs rhs).

(** [operator==(basic_iterator, sentinel)]. *)
Definition operator_eq_sentinel (lhs : basic_iterator) : bool :=
  urng1_iterator lhs =? urng1_sentinel lhs.

Definition operator_neq_sentinel (lhs : basic_iterator) : bool :=
  negb (operator_eq_sentinel lhs).

(** Iterating a view from [begin()] to [end()]:
<<
    for (auto && x : v) out.push_back(x);
>> *)
Fixpoint collect (v : minimiser_view) (fuel : nat) (it : basic_iterator)
  : result (list value_type) :=
  match fuel with
  | 0 => OutOfFuel
  | S fuel' =>
      if operator_eq_sentinel it then Ok []
      else
        it' <- operator_inc v it ;;
        out <- collect v fuel' it' ;;
        Ok (operator_deref it :: out)
  end.

Definition to_list (v : minimiser_view) : result (list value_type) :=
  it <- begin v ;;
  collect v (S (length (urange1 v))) it.

(** [urange1 | seqan3::views::minimiser(w)], iterated. *)
Definition run_single (r1 : list value_type) (w : nat) : result (list value_type) :=
  v <- minimiser_fn r1 w ;; to_list v.

(** [seqan3::detail::minimiser_view{urange1, urange2, w}], iterated. *)
Definition run_dual (r1 r2 : list value_type) (w : nat) : result (list value_type) :=
  v <- minimiser_view_dual r1 r2 w ;; to_list v.

(* ------------------------------------------------------------------------- *)
(** ** Specification vocabulary *)

(** The values the window is filled with: the source itself, or, with two
    ranges, the position-wise [std::min] of both. *)
Definition window_source (v : minimiser_view) : list value_type :=
  match urange2 v with
  | None => urange1 v
  | Some r2 => map (fun p => std_min (fst p) (snd p)) (combine (urange1 v) r2)
  end.

(** The contiguous window of [len] values starting at index [start]. *)
Definition window_at (l : list value_type) (start len : nat) : list value_type :=
  firstn len (skipn start l).

Definition is_minimum (x : value_type) (l : list value_type) : Prop :=
  In x l /\ Forall (N.le x) l.

(** [x] sits at index [i] of [l], nothing in [l] is smaller, and everything
    to the right of [i] is strictly larger: the rightmost occurrence of the
    minimum. *)
Definition rightmost_min (l : list value_type) (i : nat) (x : value_type) : Prop :=
  nth_error l i = Some x
  /\ Forall (N.le x) l
  /\ forall j y, i < j -> nth_error l j = Some y -> (x < y)%N.

(** The window size after the clamp in the iterator's constructor. *)
Definition clamped_window_size (v : minimiser_view) : nat :=
  Nat.min (window_size v) (length (urange1 v)).

(** What the size check of the constructor establishes. *)
Definition same_size (v : minimiser_view) : Prop :=
  match urange2 v with
  | None => True
  | Some r2 => length (urange1 v) = length r2
  end.

(** Both cursors point at the same position whenever a second range exists. *)
Definition synced (v : minimiser_view) (it : basic_iterator) : Prop :=
  match urange2 v with
  | None => True
  | Some _ => urng2_iterator it = urng1_iterator it
  end.

(** The iterator after a successful [advance_window]. *)
Definition advanced (v : minimiser_view) (it : basic_iterator) : basic_iterator :=
  set_urng_iterators it (S (urng1_iterator it))
    (match urange2 v with
     | None => urng2_iterator it
     | Some _ => S (urng2_iterator it)
     end).

(** The tracked pair is a minimum of the stored window ... *)
Definition tracks_minimum (it : basic_iterator) : Prop :=
  nth_error (window_values it) (minimiser_position_offset it)
    = Some (minimiser_value it)
  /\ Forall (N.le (minimiser_value it)) (window_values it).

(** ... and, more precisely, its rightmost occurrence. *)
Definition tracks_rightmost (it : basic_iterator) : Prop :=
  rightmost_min (window_values it) (minimiser_position_offset it)
    (minimiser_value it).

(** The state of an iterator that has not reached the end: the stored window
    is the window of the source that ends at the primary cursor. *)
Record active_inv (v : minimiser_view) (it : basic_iterator) : Prop := {
  inv_sentinel : urng1_sentinel it = length (urange1 v);
  inv_cursor : urng1_iterator it < length (urange1 v);
  inv_synced : synced v it;
  inv_lower : clamped_window_size v <= S (urng1_iterator it);
  inv_window :
    window_values it
    = window_at (window_source v)
        (S (urng1_iterator it) - clamped_window_size v) (clamped_window_size v);
  inv_min : tracks_minimum it
}.

(** The state after the step that reached the end: the cursors of the last
    active state advanced, everything else as it was. *)
Definition exhausted_inv (v : minimiser_view) (it : basic_iterator) : Prop :=
  exists it_last,
    active_inv v it_last
    /\ S (urng1_iterator it_last) = length (urange1 v)
    /\ it = advanced v it_last.

(** Iterator states obtained from [begin()] by increments. *)
Inductive reachable (v : minimiser_view) : basic_iterator -> Prop :=
| reach_begin it :
    begin v = Ok it -> reachable v it
| reach_inc it it' :
    reachable v it -> operator_inc v it = Ok it' -> reachable v it'.


(** [out] lists minima of windows of the source taken at strictly increasing
    start positions, none before [lo]. *)
Definition emitted (v : minimiser_view) (lo : nat) (out : list value_type) : Prop :=
  exists starts,
    Forall2 (fun x s =>
               is_minimum x
                 (window_at (window_source v) s (clamped_window_size v))
               /\ lo <= s
               /\ s + clamped_window_size v <= length (urange1 v))
            out starts
    /\ StronglySorted lt starts.


(** The example ranges of the documentation of [seqan3::views::minimiser]. *)
Definition reference_source1 : list value_type :=
  [28; 100; 9; 23; 4; 1; 72; 37; 8]%N.
Definition reference_source2 : list value_type :=
  [30; 2; 11; 101; 199; 73; 34; 900]%N.


(* ------------------------------------------------------------------------- *)
(** ** Further operations and vocabulary *)

(** [base()]: the underlying iterator of the first range. *)
Definition base (it : basic_iterator) : nat := urng1_iterator it.

(** The iterator reached from [begin()] by [n] increments. *)
Fixpoint steps (v : minimiser_view) (n : nat) : result basic_iterator :=
  match n with
  | 0 => begin v
  | S n' => it <- steps v n' ;; operator_inc v it
  end.

(** The position-wise [std::min] of two ranges. *)
Definition pointwise_min (r1 r2 : list value_type) : list value_type :=
  map (fun p => std_min (fst p) (snd p)) (combine r1 r2).

(** An iterator of a two-range view seen as one of a single-range view:
    the secondary cursor is the (never advanced) begin of the empty view. *)
Definition drop_secondary (it : basic_iterator) : basic_iterator :=
  set_urng_iterators it (urng1_iterator it) 0.

Definition result_map {A B : Type} (f : A -> B) (r : result A) : result B :=
  match r with
  | Ok a => Ok (f a)
  | Raise e => Raise e
  | Undefined => Undefined
  | OutOfFuel => OutOfFuel
  end.

(** The state [begin()] starts from, before [window_first] runs. *)
Definition initial_iterator (v : minimiser_view) : basic_iterator :=
  Build_iterator 0%N 0 0 (length (urange1 v)) 0 [].

(** A range in which every value is smaller than all later ones. *)
Definition strictly_increasing (l : list value_type) : Prop :=
  forall i j x y,
    i < j -> nth_error l i = Some x -> nth_error l j = Some y -> (x < y)%N.

(** The least value of a list (0 for the empty list). *)
Definition minimum_of (l : list value_type) : value_type :=
  match l with
  | [] => 0%N
  | x :: l' => fold_left N.min l' x
  end.

(** The minima of all windows of [n] consecutive values, left to right. *)
Definition window_minima (l : list value_type) (n : nat) : list value_type :=
  map (fun s => minimum_of (window_at l s n)) (seq 0 (length l - n + 1)).

(** Each value of [out] repeated as often as [runs] says. *)
Definition expand (out : list value_type) (runs : list nat) : list value_type :=
  concat (map (fun p => repeat (fst p) (snd p)) (combine out runs)).

(* ------------------------------------------------------------------------- *)
(** ** Outcomes: basic facts *)

Lemma bind_Ok_inv {A B : Type} (r : result A) (k : A -> result B) (b : B) :
  bind r k = Ok b -> exists a, r = Ok a /\ k a = Ok b.
Proof.
  destruct r as [a | e | | ]; simpl; intros H; try discriminate.
  exists a; split; [reflexivity | exact H].
Qed.

Lemma bind_no_raise {A B : Type} (r : result A) (k : A -> result B) :
  is_raise r = false -> (forall a, is_raise (k a) = false) ->
  is_raise (bind r k) = false.
Proof.
  destruct r; simpl; intros Hr Hk; auto.
Qed.

Lemma bind_fuel_ok {A B : Type} (r : result A) (k : A -> result B) :
  is_out_of_fuel r = false -> (forall a, r = Ok a -> is_out_of_fuel (k a) = false) ->
  is_out_of_fuel (bind r k) = false.
Proof.
  destruct r; simpl; intros Hr Hk; auto.
Qed.

(* ------------------------------------------------------------------------- *)
(** ** Proof automation *)

#[local] Arguments Nat.sub : simpl never.
#[local] Arguments Nat.min : simpl never.

Ltac no_raise_cases :=
  repeat first
    [ reflexivity
    | apply bind_no_raise; [| intros ?]
    | match goal with
      | |- context [match ?x with _ => _ end] => destruct x
      end ].

Ltac fuel_free_cases :=
  repeat first
    [ reflexivity
    | apply bind_fuel_ok; [| intros ? _]
    | match goal with
      | |- context [match ?x with _ => _ end] => destruct x
      end ].

(* ------------------------------------------------------------------------- *)
(** ** Lists and windows *)

Lemma firstn_snoc (l : list value_type) (m : nat) (x : value_type) :
  nth_error l m = Some x -> firstn m l ++ [x] = firstn (S m) l.
Proof.
  revert l; induction m as [| m IH]; intros [| y l] H; simpl in *;
    try discriminate.
  - now inversion H.
  - f_equal. now apply IH.
Qed.

Lemma skipn_cons_nth (l : list value_type) (a : nat) (y : value_type) :
  nth_error l a = Some y -> skipn a l = y :: skipn (S a) l.
Proof.
  revert l; induction a as [| a IH]; intros [| z l] H; simpl in *;
    try discriminate.
  - now inversion H.
  - now apply IH.
Qed.

(** Sliding the window by one: drop the front, append the next value. *)
Lemma window_at_slide (l : list value_type) (a n : nat) (x : value_type) :
  0 < n -> nth_error l (a + n) = Some x ->
  tl (window_at l a n) ++ [x] = window_at l (S a) n.
Proof.
  intros Hn Hx. unfold window_at.
  destruct n as [| m]; [lia |].
  assert (Ha : a < length l).
  { assert (a + S m < length l) by (apply nth_error_Some; congruence). lia. }
  destruct (nth_error l a) as [y |] eqn:Hy;
    [| apply nth_error_None in Hy; lia].
  rewrite (skipn_cons_nth _ _ _ Hy), firstn_cons.
  change (firstn m (skipn (S a) l) ++ [x] = firstn (S m) (skipn (S a) l)).
  apply firstn_snoc.
  rewrite nth_error_skipn. rewrite <- Hx. f_equal. lia.
Qed.

Lemma window_at_length (l : list value_type) (a n : nat) :
  a + n <= length l -> length (window_at l a n) = n.
Proof.
  intros H. unfold window_at. rewrite length_firstn, length_skipn. lia.
Qed.

Lemma window_at_all (l : list value_type) :
  window_at l 0 (length l) = l.
Proof.
  unfold window_at. simpl. apply firstn_all.
Qed.

(* ------------------------------------------------------------------------- *)
(** ** [min_element] with [less_equal] picks the rightmost minimum *)

Lemma rightmost_min_unique (l : list value_type) (i j : nat) (x y : value_type) :
  rightmost_min l i x -> rightmost_min l j y -> i = j /\ x = y.
Proof.
  intros (Hi & Hai & Hri) (Hj & Haj & Hrj).
  assert (Hxy : (x <= y)%N).
  { rewrite Forall_forall in Hai. apply Hai. eapply nth_error_In; eauto. }
  assert (Hyx : (y <= x)%N).
  { rewrite Forall_forall in Haj. apply Haj. eapply nth_error_In; eauto. }
  destruct (Nat.lt_trichotomy i j) as [Hlt | [Heq | Hgt]].
  - specialize (Hri _ _ Hlt Hj). lia.
  - subst j. split; [reflexivity | congruence].
  - specialize (Hrj _ _ Hgt Hi). lia.
Qed.

Lemma rightmost_min_is_minimum (l : list value_type) (i : nat) (x : value_type) :
  rightmost_min l i x -> is_minimum x l.
Proof.
  intros (Hi & Ha & _). split; [eapply nth_error_In; eauto | exact Ha].
Qed.

Lemma rightmost_min_snoc_le (l : list value_type) (i : nat) (x y : value_type) :
  rightmost_min l i x -> (y <= x)%N -> rightmost_min (l ++ [y]) (length l) y.
Proof.
  intros (Hi & Ha & Hr) Hle. repeat split.
  - rewrite nth_error_app2 by lia. now rewrite Nat.sub_diag.
  - apply Forall_app. split.
    + eapply Forall_impl; [| exact Ha]. intros z Hz. simpl in Hz. lia.
    + constructor; [lia | constructor].
  - intros j z Hj Hz.
    assert (j < length (l ++ [y])) by (apply nth_error_Some; congruence).
    rewrite length_app in H. simpl in H. lia.
Qed.

Lemma rightmost_min_snoc_gt (l : list value_type) (i : nat) (x y : value_type) :
  rightmost_min l i x -> (x < y)%N -> rightmost_min (l ++ [y]) i x.
Proof.
  intros (Hi & Ha & Hr) Hlt.
  assert (Hil : i < length l) by (apply nth_error_Some; congruence).
  repeat split.
  - now rewrite nth_error_app1.
  - apply Forall_app. split; [exact Ha |].
    constructor; [lia | constructor].
  - intros j z Hj Hz.
    destruct (Nat.lt_ge_cases j (length l)) as [Hjl | Hjl].
    + rewrite nth_error_app1 in Hz by exact Hjl. eapply Hr; eauto.
    + rewrite nth_error_app2 in Hz by exact Hjl.
      destruct (j - length l) as [| k] eqn:Hk; simpl in Hz.
      * inversion Hz; subst. exact Hlt.
      * destruct k; discriminate.
Qed.

Lemma min_element_from_spec (rest pre : list value_type) (best_pos : nat)
    (best : value_type) :
  rightmost_min pre best_pos best ->
  exists x,
    rightmost_min (pre ++ rest)
      (min_element_from less_equal rest (length pre) best_pos best) x.
Proof.
  revert pre best_pos best.
  induction rest as [| y rest IH]; intros pre best_pos best Hpre; simpl.
  - exists best. now rewrite app_nil_r.
  - unfold less_equal at 1. destruct (N.leb_spec y best) as [Hle | Hgt].
    + destruct (IH (pre ++ [y]) (length pre) y) as (x & Hx).
      { eapply rightmost_min_snoc_le; eauto. }
      exists x. rewrite <- app_assoc, length_app in Hx. simpl in Hx.
      now rewrite Nat.add_1_r in Hx.
    + destruct (IH (pre ++ [y]) best_pos best) as (x & Hx).
      { eapply rightmost_min_snoc_gt; eauto. }
      exists x. rewrite <- app_assoc, length_app in Hx. simpl in Hx.
      now rewrite Nat.add_1_r in Hx.
Qed.

Lemma rightmost_min_singleton (x : value_type) : rightmost_min [x] 0 x.
Proof.
  repeat split.
  - constructor; [simpl; lia | constructor].
  - intros [| [| j]] y Hj Hy; simpl in Hy; try lia; discriminate.
Qed.

Lemma min_element_spec (l : list value_type) :
  l <> [] -> exists x, rightmost_min l (min_element less_equal l) x.
Proof.
  destruct l as [| y rest]; [congruence | intros _].
  simpl. apply (min_element_from_spec rest [y] 0 y (rightmost_min_singleton y)).
Qed.

(* ------------------------------------------------------------------------- *)
(** ** Views and cursors *)

(** On ranges that a move leaves intact the check compares the lengths. *)
Lemma minimiser_view_ctor_ref (r1 : list value_type)
    (r2 : option (list value_type)) (w : nat) :
  minimiser_view_ctor r1 r2 w
  = match r2 with
    | Some r2' =>
        if negb (length r1 =? length r2')
        then Raise (invalid_argument sizes_differ)
        else Ok (Build_view r1 r2 w)
    | None => Ok (Build_view r1 r2 w)
    end.
Proof. destruct r2; reflexivity. Qed.

Lemma minimiser_view_ctor_inv (r1 : list value_type) (r2 : option (list value_type))
    (w : nat) (v : minimiser_view) :
  minimiser_view_ctor r1 r2 w = Ok v ->
  v = Build_view r1 r2 w /\ same_size v.
Proof.
  rewrite minimiser_view_ctor_ref. unfold same_size.
  destruct r2 as [r2' |].
  - destruct (Nat.eqb_spec (length r1) (length r2')) as [He | Hne]; simpl;
      intros H; inversion H; subst; simpl; auto.
  - intros H; inversion H; subst; simpl; auto.
Qed.

Lemma window_source_length (v : minimiser_view) :
  same_size v -> length (window_source v) = length (urange1 v).
Proof.
  unfold same_size, window_source. destruct (urange2 v) as [r2 |]; intros H.
  - rewrite length_map, length_combine. lia.
  - reflexivity.
Qed.

Lemma nth_error_combine_Some (l1 l2 : list value_type) (n : nat)
    (a b : value_type) :
  nth_error l1 n = Some a -> nth_error l2 n = Some b ->
  nth_error (combine l1 l2) n = Some (a, b).
Proof.
  revert l1 l2; induction n as [| n IH]; intros [| x l1] [| y l2] Ha Hb;
    simpl in *; try discriminate.
  - congruence.
  - now apply IH.
Qed.

Lemma deref_Ok (r : list value_type) (pos : nat) (x : value_type) :
  nth_error r pos = Some x -> deref r pos = Ok x.
Proof. unfold deref. now intros ->. Qed.

Lemma deref_Ok_inv (r : list value_type) (pos : nat) (x : value_type) :
  deref r pos = Ok x -> nth_error r pos = Some x.
Proof. unfold deref. destruct (nth_error r pos); intros H; now inversion H. Qed.

Lemma incr_Ok_inv (r : list value_type) (pos p : nat) :
  incr r pos = Ok p -> p = S pos /\ pos < length r.
Proof.
  unfold incr. destruct (Nat.ltb_spec pos (length r)) as [Hlt | Hge];
    intros Heq; inversion Heq.
  split; [reflexivity | assumption].
Qed.

Lemma window_value_ok (v : minimiser_view) (it : basic_iterator) :
  same_size v -> synced v it -> urng1_iterator it < length (urange1 v) ->
  exists x,
    nth_error (window_source v) (urng1_iterator it) = Some x
    /\ window_value v it = Ok x.
Proof.
  unfold same_size, synced, window_source, window_value.
  destruct (urange2 v) as [r2 |]; intros Hs Hc Hlt.
  - destruct (nth_error (urange1 v) (urng1_iterator it)) as [a |] eqn:Ha;
      [| apply nth_error_None in Ha; lia].
    destruct (nth_error r2 (urng1_iterator it)) as [b |] eqn:Hb;
      [| apply nth_error_None in Hb; lia].
    exists (std_min a b). split.
    + rewrite nth_error_map, (nth_error_combine_Some _ _ _ _ _ Ha Hb). reflexivity.
    + rewrite Hc. rewrite (deref_Ok _ _ _ Ha), (deref_Ok _ _ _ Hb). reflexivity.
  - destruct (nth_error (urange1 v) (urng1_iterator it)) as [a |] eqn:Ha;
      [| apply nth_error_None in Ha; lia].
    exists a. split; [reflexivity | now apply deref_Ok].
Qed.

Lemma advance_window_inv (v : minimiser_view) (it it1 : basic_iterator) :
  advance_window v it = Ok it1 ->
  it1 = advanced v it /\ urng1_iterator it < length (urange1 v).
Proof.
  unfold advance_window, advanced. intros H.
  apply bind_Ok_inv in H. destruct H as (p1 & Hp1 & H).
  apply incr_Ok_inv in Hp1. destruct Hp1 as (-> & Hlt).
  destruct (urange2 v) as [r2 |].
  - apply bind_Ok_inv in H. destruct H as (p2 & Hp2 & H).
    apply incr_Ok_inv in Hp2. destruct Hp2 as (-> & _).
    inversion H. auto.
  - inversion H. auto.
Qed.

Lemma advance_window_ok (v : minimiser_view) (it : basic_iterator) :
  same_size v -> synced v it -> urng1_iterator it < length (urange1 v) ->
  advance_window v it = Ok (advanced v it).
Proof.
  unfold same_size, synced, advance_window, advanced, incr.
  intros Hs Hc Hlt.
  destruct (Nat.ltb_spec (urng1_iterator it) (length (urange1 v))); [| lia].
  simpl. destruct (urange2 v) as [r2 |]; [| reflexivity].
  rewrite Hc.
  destruct (Nat.ltb_spec (urng1_iterator it) (length r2)); [| lia].
  reflexivity.
Qed.

Lemma synced_advanced (v : minimiser_view) (it : basic_iterator) :
  synced v it -> synced v (advanced v it).
Proof.
  unfold synced, advanced. destruct (urange2 v); simpl; auto.
Qed.

Lemma rescan_ok (it : basic_iterator) :
  window_values it <> [] ->
  exists x,
    rightmost_min (window_values it)
      (min_element less_equal (window_values it)) x
    /\ rescan it
       = Ok (set_minimiser it x (min_element less_equal (window_values it))).
Proof.
  intros Hne. destruct (min_element_spec _ Hne) as (x & Hx).
  exists x. split; [exact Hx |].
  unfold rescan. destruct Hx as (Hn & _). now rewrite (deref_Ok _ _ _ Hn).
Qed.

(* ------------------------------------------------------------------------- *)
(** ** [window_first] and [begin] *)

Lemma window_at_cons (l : list value_type) (a n : nat) (x : value_type) :
  nth_error l a = Some x -> window_at l a (S n) = x :: window_at l (S a) n.
Proof.
  intros H. unfold window_at. now rewrite (skipn_cons_nth _ _ _ H), firstn_cons.
Qed.

Lemma window_first_loop_ok (v : minimiser_view) (n : nat) :
  same_size v ->
  forall it,
    synced v it -> urng1_iterator it + n <= length (urange1 v) ->
    exists it',
      window_first_loop v n it = Ok it'
      /\ urng1_iterator it' = urng1_iterator it + n
      /\ urng1_sentinel it' = urng1_sentinel it
      /\ synced v it'
      /\ window_values it'
         = window_values it ++ window_at (window_source v) (urng1_iterator it) n.
Proof.
  intros Hs. induction n as [| n IH]; intros it Hc Hle.
  - exists it. simpl. repeat split; auto.
    unfold window_at. simpl. now rewrite app_nil_r.
  - simpl.
    destruct (window_value_ok v it Hs Hc) as (x & Hx & Hwv); [lia |].
    rewrite Hwv. simpl.
    set (it0 := set_window_values it (push_back (window_values it) x)).
    assert (Hc0 : synced v it0) by exact Hc.
    rewrite (advance_window_ok v it0 Hs Hc0) by (simpl; lia). simpl.
    destruct (IH (advanced v it0)) as (it' & Hrun & Hp & Hsen & Hsy & Hwin).
    { now apply synced_advanced. }
    { simpl. lia. }
    exists it'. rewrite Hrun. simpl in Hp, Hsen, Hwin.
    repeat split; auto; try lia.
    rewrite Hwin. unfold push_back. rewrite <- app_assoc. simpl.
    now rewrite (window_at_cons _ _ n _ Hx).
Qed.

Lemma begin_ok (v : minimiser_view) :
  same_size v -> 0 < window_size v -> 0 < length (urange1 v) ->
  exists it,
    begin v = Ok it
    /\ active_inv v it
    /\ tracks_rightmost it
    /\ S (urng1_iterator it) = clamped_window_size v.
Proof.
  intros Hs Hw Hn.
  assert (Hcl : 0 < clamped_window_size v <= length (urange1 v))
    by (unfold clamped_window_size; lia).
  unfold begin, basic_iterator_ctor. rewrite Nat.sub_0_r.
  fold (clamped_window_size v). unfold window_first.
  destruct (Nat.eqb_spec (clamped_window_size v) 0) as [He | _]; [lia |].
  set (it0 := Build_iterator 0%N 0 0 (length (urange1 v)) 0 []).
  assert (Hc0 : synced v it0) by (unfold synced; destruct (urange2 v); auto).
  destruct (window_first_loop_ok v (clamped_window_size v - 1) Hs it0 Hc0)
    as (it1 & Hrun & Hp & Hsen & Hsy & Hwin); [simpl; lia |].
  rewrite Hrun. simpl bind. simpl in Hp, Hsen, Hwin.
  destruct (window_value_ok v it1 Hs Hsy) as (x & Hx & Hwv); [lia |].
  rewrite Hwv. simpl bind.
  set (it2 := set_window_values it1 (push_back (window_values it1) x)).
  assert (Hwin2 : window_values it2
                  = window_at (window_source v) 0 (clamped_window_size v)).
  { simpl. rewrite Hwin. unfold push_back, window_at. simpl skipn.
    rewrite Hp in Hx. rewrite (firstn_snoc _ _ _ Hx). f_equal. lia. }
  destruct (rescan_ok it2) as (m & Hm & Hres).
  { rewrite Hwin2. intros Hnil.
    apply (f_equal (@length _)) in Hnil.
    rewrite window_at_length in Hnil; simpl in Hnil;
      [lia | rewrite window_source_length by exact Hs; lia]. }
  rewrite Hres. eexists. split; [reflexivity |].
  repeat split; simpl; try assumption; try lia.
  - replace (S (urng1_iterator it1) - clamped_window_size v) with 0 by lia.
    exact Hwin2.
  - apply Hm.
  - apply Hm.
  - apply Hm.
  - apply Hm.
  - apply Hm.
Qed.

(* ------------------------------------------------------------------------- *)
(** ** One call of [next_minimiser] *)

Lemma tracks_rightmost_minimum (it : basic_iterator) :
  tracks_rightmost it -> tracks_minimum it.
Proof. intros (H1 & H2 & _). split; assumption. Qed.

Lemma active_window_length (v : minimiser_view) (it : basic_iterator) :
  same_size v -> active_inv v it ->
  length (window_values it) = clamped_window_size v.
Proof.
  intros Hs [_ Hc _ Hlo Hwin _]. rewrite Hwin.
  apply window_at_length. rewrite window_source_length by exact Hs. lia.
Qed.

(** The call that reaches the end only moves the cursors. *)
Lemma next_minimiser_at_end (v : minimiser_view) (it : basic_iterator) :
  same_size v -> synced v it ->
  urng1_iterator it < length (urange1 v) ->
  S (urng1_iterator it) = urng1_sentinel it ->
  next_minimiser v it = Ok (true, advanced v it).
Proof.
  intros Hs Hsy Hlt Hend. unfold next_minimiser.
  rewrite (advance_window_ok v it Hs Hsy Hlt). cbn [bind].
  change (urng1_iterator (advanced v it)) with (S (urng1_iterator it)).
  change (urng1_sentinel (advanced v it)) with (urng1_sentinel it).
  now rewrite Hend, Nat.eqb_refl.
Qed.

(** Any other call slides the window by one and keeps the invariant; when it
    reports a change the tracked pair is the rightmost minimum. *)
Lemma next_minimiser_slide (v : minimiser_view) (it : basic_iterator) :
  same_size v -> 0 < window_size v -> active_inv v it ->
  S (urng1_iterator it) < length (urange1 v) ->
  exists b it',
    next_minimiser v it = Ok (b, it')
    /\ active_inv v it'
    /\ urng1_iterator it' = S (urng1_iterator it)
    /\ (b = true -> tracks_rightmost it').
Proof.
  intros Hs Hw Hinv Hlt.
  pose proof (active_window_length v it Hs Hinv) as Hlen.
  destruct Hinv as [Hsen Hc Hsy Hlo Hwin (Hnth & Hall)].
  assert (Hcl : 0 < clamped_window_size v) by (unfold clamped_window_size; lia).
  unfold next_minimiser.
  rewrite (advance_window_ok v it Hs Hsy Hc). cbn [bind].
  pose proof (synced_advanced v it Hsy) as Hsy1.
  set (it1 := advanced v it) in *.
  assert (Hc1 : urng1_iterator it1 = S (urng1_iterator it)) by reflexivity.
  assert (Hs1 : urng1_sentinel it1 = urng1_sentinel it) by reflexivity.
  rewrite Hc1, Hs1, Hsen.
  destruct (Nat.eqb_spec (S (urng1_iterator it)) (length (urange1 v)));
    [lia |].
  destruct (window_value_ok v it1 Hs Hsy1) as (x & Hx & Hwv); [rewrite Hc1; lia |].
  rewrite Hwv. cbn [bind]. rewrite Hc1 in Hx.
  change (window_values it1) with (window_values it).
  destruct (window_values it) as [| y d] eqn:Hd; [simpl in Hlen; lia |].
  cbn [bind pop_front].
  assert (Hslide : push_back d x
                   = window_at (window_source v)
                       (S (S (urng1_iterator it)) - clamped_window_size v)
                       (clamped_window_size v)).
  { unfold push_back. change d with (tl (y :: d)). rewrite Hwin.
    replace (S (S (urng1_iterator it)) - clamped_window_size v)
      with (S (S (urng1_iterator it) - clamped_window_size v)) by lia.
    apply window_at_slide; [exact Hcl |].
    rewrite <- Hx. f_equal. lia. }
  set (it2 := set_window_values it1 (push_back d x)).
  change (minimiser_position_offset it2) with (minimiser_position_offset it).
  change (minimiser_value it2) with (minimiser_value it).
  destruct (minimiser_position_offset it) as [| o] eqn:Hoff.
  - (* the minimiser left the window: rescan *)
    simpl Nat.eqb. cbv iota.
    destruct (rescan_ok it2) as (m & Hm & Hres).
    { simpl. unfold push_back. destruct d; discriminate. }
    rewrite Hres. cbn [bind].
    exists true. eexists. split; [reflexivity |].
    split; [| split; [reflexivity | intros _; exact Hm]].
    constructor; simpl; try assumption; try lia.
    apply tracks_rightmost_minimum. exact Hm.
  - simpl Nat.eqb. cbv iota.
    simpl in Hnth. inversion Hall as [| ? ? Hy Hd']; subst.
    assert (Ho : o < length d) by (apply nth_error_Some; congruence).
    destruct (N.ltb_spec x (minimiser_value it)) as [Hnew | Hold].
    + (* a strictly smaller value entered the window *)
      exists true. eexists. split; [reflexivity |].
      assert (Hr : rightmost_min (push_back d x) (length (push_back d x) - 1) x).
      { unfold push_back. rewrite length_app. simpl.
        replace (length d + 1 - 1) with (length d) by lia.
        repeat split.
        - rewrite nth_error_app2 by lia. now rewrite Nat.sub_diag.
        - apply Forall_app. split.
          + eapply Forall_impl; [| exact Hd']. intros z Hz. simpl in Hz. lia.
          + constructor; [lia | constructor].
        - intros j z Hj Hz.
          assert (j < length (d ++ [x])) by (apply nth_error_Some; congruence).
          rewrite length_app in H. simpl in H. lia. }
      split; [| split; [reflexivity | intros _; exact Hr]].
      constructor; simpl; try assumption; try lia.
      apply tracks_rightmost_minimum. exact Hr.
    + (* the tracked minimiser stays, one position further left *)
      exists false. eexists. split; [reflexivity |].
      split; [| split; [reflexivity | discriminate]].
      constructor; simpl; try assumption; try lia.
      split; simpl.
      * replace (S o - 1) with o by lia.
        unfold push_back. now rewrite nth_error_app1.
      * unfold push_back. apply Forall_app. split; [exact Hd' |].
        constructor; [lia | constructor].
Qed.

(* ------------------------------------------------------------------------- *)
(** ** What a returning [next_minimiser] did, for any state *)

Lemma window_value_Ok_inv (v : minimiser_view) (it : basic_iterator)
    (x : value_type) :
  window_value v it = Ok x -> urng1_iterator it < length (urange1 v).
Proof.
  unfold window_value. intros H.
  assert (Hd : exists a, deref (urange1 v) (urng1_iterator it) = Ok a).
  { destruct (urange2 v).
    - apply bind_Ok_inv in H. destruct H as (a & Ha & _). now exists a.
    - now exists x. }
  destruct Hd as (a & Ha). apply deref_Ok_inv in Ha.
  apply nth_error_Some. congruence.
Qed.

Lemma rescan_Ok_inv (it it' : basic_iterator) :
  rescan it = Ok it' ->
  exists x, it' = set_minimiser it x (min_element less_equal (window_values it)).
Proof.
  unfold rescan. intros H. apply bind_Ok_inv in H.
  destruct H as (x & _ & H). exists x. now inversion H.
Qed.

Lemma next_minimiser_Ok_inv (v : minimiser_view) (it it' : basic_iterator)
    (b : bool) :
  next_minimiser v it = Ok (b, it') ->
  urng1_iterator it' = S (urng1_iterator it)
  /\ urng1_sentinel it' = urng1_sentinel it
  /\ urng1_iterator it < length (urange1 v)
  /\ (b = false -> S (urng1_iterator it) < length (urange1 v))
  /\ (urng1_iterator it' = urng1_sentinel it' ->
      b = true /\ it' = advanced v it).
Proof.
  unfold next_minimiser. intros H.
  apply bind_Ok_inv in H. destruct H as (it1 & Hadv & H).
  apply advance_window_inv in Hadv. destruct Hadv as (-> & Hlt).
  change (urng1_iterator (advanced v it)) with (S (urng1_iterator it)) in H.
  change (urng1_sentinel (advanced v it)) with (urng1_sentinel it) in H.
  destruct (Nat.eqb_spec (S (urng1_iterator it)) (urng1_sentinel it))
    as [Hend | Hnot].
  - inversion H; subst. repeat split; auto. discriminate.
  - apply bind_Ok_inv in H. destruct H as (x & Hx & H).
    apply window_value_Ok_inv in Hx.
    change (urng1_iterator (advanced v it)) with (S (urng1_iterator it)) in Hx.
    apply bind_Ok_inv in H. destruct H as (d & _ & H).
    cbn [minimiser_position_offset minimiser_value set_window_values] in H.
    destruct (minimiser_position_offset (advanced v it) =? 0).
    + apply bind_Ok_inv in H. destruct H as (it3 & Hres & H).
      apply rescan_Ok_inv in Hres. destruct Hres as (m & ->).
      inversion H; subst. cbn. repeat split; auto. all: intros; lia.
    + destruct (N.ltb x (minimiser_value (advanced v it)));
        inversion H; subst; cbn; repeat split; auto; intros; lia.
Qed.

Lemma next_minimiser_no_raise (v : minimiser_view) (it : basic_iterator) :
  is_raise (next_minimiser v it) = false.
Proof.
  unfold next_minimiser, advance_window, window_value, rescan, incr, deref,
    pop_front.
  repeat first
    [ reflexivity
    | apply bind_no_raise; [| intros ?]
    | match goal with
      | |- context [match ?x with _ => _ end] => destruct x
      end ].
Qed.

Lemma next_minimiser_fuel_free (v : minimiser_view) (it : basic_iterator) :
  is_out_of_fuel (next_minimiser v it) = false.
Proof.
  unfold next_minimiser, advance_window, window_value, rescan, incr, deref,
    pop_front.
  repeat first
    [ reflexivity
    | apply bind_fuel_ok; [| intros ? _]
    | match goal with
      | |- context [match ?x with _ => _ end] => destruct x
      end ].
Qed.

(* ------------------------------------------------------------------------- *)
(** ** The loop of [next_unique_minimiser] *)

Lemma next_unique_minimiser_loop_no_raise (v : minimiser_view) (fuel : nat) :
  forall it, is_raise (next_unique_minimiser_loop v fuel it) = false.
Proof.
  induction fuel as [| fuel IH]; intros it; simpl; [reflexivity |].
  apply bind_no_raise; [apply next_minimiser_no_raise |].
  intros [b it']. simpl. destruct b; [reflexivity | apply IH].
Qed.

(** The bound used by [next_unique_minimiser] is never exhausted. *)
Lemma next_unique_minimiser_loop_fuel (v : minimiser_view) (fuel : nat) :
  forall it,
    length (urange1 v) - urng1_iterator it < fuel ->
    is_out_of_fuel (next_unique_minimiser_loop v fuel it) = false.
Proof.
  induction fuel as [| fuel IH]; intros it Hf; [lia |].
  simpl. apply bind_fuel_ok; [apply next_minimiser_fuel_free |].
  intros [b it'] Hstep. simpl. destruct b; [reflexivity |].
  apply next_minimiser_Ok_inv in Hstep.
  destruct Hstep as (Hc & _ & _ & Hlt & _). specialize (Hlt eq_refl).
  apply IH. lia.
Qed.

Lemma next_unique_minimiser_total (v : minimiser_view) (it : basic_iterator) :
  is_out_of_fuel (next_unique_minimiser v it) = false.
Proof.
  apply next_unique_minimiser_loop_fuel. lia.
Qed.

(** A returning loop moved the cursor forward; if it stopped at the end, its
    last call was the one that only advances the cursors. *)
Lemma next_unique_minimiser_loop_Ok_inv (v : minimiser_view) (fuel : nat) :
  forall it it',
    next_unique_minimiser_loop v fuel it = Ok it' ->
    urng1_iterator it < urng1_iterator it' <= length (urange1 v)
    /\ urng1_sentinel it' = urng1_sentinel it
    /\ (urng1_iterator it' = urng1_sentinel it' ->
        exists it_last,
          next_minimiser v it_last = Ok (true, it')
          /\ it' = advanced v it_last
          /\ urng1_iterator it <= urng1_iterator it_last).
Proof.
  induction fuel as [| fuel IH]; intros it it' H; simpl in H; [discriminate |].
  apply bind_Ok_inv in H. destruct H as ([b it1] & Hstep & H). simpl in H.
  pose proof (next_minimiser_Ok_inv v it it1 b Hstep)
    as (Hc & Hsen & Hlt & Hfalse & Hend).
  destruct b.
  - inversion H; subst it1. repeat split; try lia; auto.
    intros He. destruct (Hend He) as (_ & Hadv).
    exists it. repeat split; auto.
  - apply IH in H. destruct H as (Hc' & Hsen' & Hend').
    repeat split; try lia; try congruence.
    intros He. destruct (Hend' He) as (it_last & H1 & H2 & H3).
    exists it_last. repeat split; auto. lia.
Qed.

Lemma next_unique_minimiser_loop_ok (v : minimiser_view) :
  same_size v -> 0 < window_size v ->
  forall fuel it,
    active_inv v it ->
    length (urange1 v) - urng1_iterator it <= fuel ->
    exists it',
      next_unique_minimiser_loop v fuel it = Ok it'
      /\ urng1_iterator it < urng1_iterator it'
      /\ ((active_inv v it' /\ tracks_rightmost it') \/ exhausted_inv v it').
Proof.
  intros Hs Hw. induction fuel as [| fuel IH]; intros it Hinv Hf.
  - destruct Hinv. lia.
  - simpl.
    destruct (Nat.eq_dec (S (urng1_iterator it)) (length (urange1 v)))
      as [Hend | Hnot].
    + rewrite next_minimiser_at_end; try apply Hinv; auto.
      2:{ destruct Hinv. congruence. }
      cbn [bind fst snd].
      exists (advanced v it). split; [reflexivity |].
      split; [simpl; lia |].
      right. exists it. auto.
    + destruct (next_minimiser_slide v it Hs Hw Hinv)
        as (b & it1 & Hstep & Hinv1 & Hc1 & Hb); [destruct Hinv; lia |].
      rewrite Hstep. cbn [bind fst snd]. destruct b.
      * exists it1. split; [reflexivity |]. split; [lia |]. left. auto.
      * destruct (IH it1 Hinv1) as (it' & Hrun & Hc' & Hres); [lia |].
        exists it'. split; [exact Hrun |]. split; [lia | exact Hres].
Qed.

Lemma operator_inc_ok (v : minimiser_view) (it : basic_iterator) :
  same_size v -> 0 < window_size v -> active_inv v it ->
  exists it',
    operator_inc v it = Ok it'
    /\ urng1_iterator it < urng1_iterator it'
    /\ ((active_inv v it' /\ tracks_rightmost it') \/ exhausted_inv v it').
Proof.
  intros Hs Hw Hinv. unfold operator_inc, next_unique_minimiser.
  apply next_unique_minimiser_loop_ok; auto.
Qed.

Lemma exhausted_at_end (v : minimiser_view) (it : basic_iterator) :
  exhausted_inv v it ->
  operator_eq_sentinel it = true /\ urng1_iterator it = length (urange1 v).
Proof.
  intros (it_last & Hinv & Hend & ->). destruct Hinv as [Hsen _ _ _ _ _].
  unfold operator_eq_sentinel.
  change (urng1_iterator (advanced v it_last)) with (S (urng1_iterator it_last)).
  change (urng1_sentinel (advanced v it_last)) with (urng1_sentinel it_last).
  rewrite Hsen, Hend.
  split; [apply Nat.eqb_refl | reflexivity].
Qed.

Lemma active_not_at_end (v : minimiser_view) (it : basic_iterator) :
  active_inv v it -> operator_eq_sentinel it = false.
Proof.
  intros [Hsen Hc _ _ _ _]. unfold operator_eq_sentinel.
  apply Nat.eqb_neq. lia.
Qed.

(* ------------------------------------------------------------------------- *)
(** ** Reachable states *)

Lemma begin_empty (v : minimiser_view) :
  length (urange1 v) = 0 ->
  begin v = Ok (Build_iterator 0%N 0 0 0 0 []).
Proof.
  intros Hn. unfold begin, basic_iterator_ctor. rewrite Hn.
  now rewrite Nat.min_0_r.
Qed.

Lemma reachable_inv (v : minimiser_view) (it : basic_iterator) :
  same_size v -> 0 < window_size v -> reachable v it ->
  (active_inv v it /\ tracks_rightmost it)
  \/ exhausted_inv v it
  \/ (length (urange1 v) = 0 /\ urng1_iterator it = urng1_sentinel it).
Proof.
  intros Hs Hw Hr. induction Hr as [it Hb | it it' Hr IH Hinc].
  - destruct (Nat.eq_dec (length (urange1 v)) 0) as [Hn | Hn].
    + rewrite (begin_empty v Hn) in Hb. inversion Hb. right. right. auto.
    + destruct (begin_ok v Hs Hw) as (it0 & Hb0 & Hinv & Hrm & _); [lia |].
      rewrite Hb0 in Hb. inversion Hb; subst. left. auto.
  - unfold operator_inc, next_unique_minimiser in Hinc.
    pose proof (next_unique_minimiser_loop_Ok_inv v _ it it' Hinc)
      as (Hc & _ & _).
    destruct IH as [(Hinv & _) | [Hex | (Hn & _)]].
    + destruct (operator_inc_ok v it Hs Hw Hinv) as (it1 & Hinc1 & _ & Hres).
      unfold operator_inc, next_unique_minimiser in Hinc1.
      rewrite Hinc1 in Hinc. inversion Hinc; subst.
      destruct Hres as [H | H]; auto.
    + apply exhausted_at_end in Hex. lia.
    + lia.
Qed.

Lemma reachable_active (v : minimiser_view) (it : basic_iterator) :
  same_size v -> 0 < window_size v -> reachable v it ->
  operator_eq_sentinel it = false ->
  active_inv v it /\ tracks_rightmost it.
Proof.
  intros Hs Hw Hr Hne.
  destruct (reachable_inv v it Hs Hw Hr) as [H | [H | (_ & H)]].
  - exact H.
  - apply exhausted_at_end in H. destruct H as (H & _). congruence.
  - unfold operator_eq_sentinel in Hne. apply Nat.eqb_neq in Hne. congruence.
Qed.

(* ------------------------------------------------------------------------- *)
(** ** No operation raises, and none runs out of rounds *)

Lemma window_first_loop_no_raise (v : minimiser_view) (n : nat) :
  forall it, is_raise (window_first_loop v n it) = false.
Proof.
  induction n as [| n IH]; intros it; simpl; [reflexivity |].
  apply bind_no_raise.
  - unfold window_value, deref. no_raise_cases.
  - intros x. apply bind_no_raise; [| intros it1; apply IH].
    unfold advance_window, incr. no_raise_cases.
Qed.

Lemma window_first_loop_fuel_free (v : minimiser_view) (n : nat) :
  forall it, is_out_of_fuel (window_first_loop v n it) = false.
Proof.
  induction n as [| n IH]; intros it; simpl; [reflexivity |].
  apply bind_fuel_ok.
  - unfold window_value, deref. fuel_free_cases.
  - intros x _. apply bind_fuel_ok; [| intros it1 _; apply IH].
    unfold advance_window, incr. fuel_free_cases.
Qed.

Lemma begin_no_raise (v : minimiser_view) : is_raise (begin v) = false.
Proof.
  unfold begin, basic_iterator_ctor, window_first.
  destruct (_ =? 0); [reflexivity |].
  apply bind_no_raise; [apply window_first_loop_no_raise |].
  intros it1. unfold window_value, rescan, deref. no_raise_cases.
Qed.

Lemma begin_fuel_free (v : minimiser_view) : is_out_of_fuel (begin v) = false.
Proof.
  unfold begin, basic_iterator_ctor, window_first.
  destruct (_ =? 0); [reflexivity |].
  apply bind_fuel_ok; [apply window_first_loop_fuel_free |].
  intros it1 _. unfold window_value, rescan, deref. fuel_free_cases.
Qed.

Lemma operator_inc_no_raise (v : minimiser_view) (it : basic_iterator) :
  is_raise (operator_inc v it) = false.
Proof. apply next_unique_minimiser_loop_no_raise. Qed.

Lemma operator_post_inc_no_raise (v : minimiser_view) (it : basic_iterator) :
  is_raise (operator_post_inc v it) = false.
Proof.
  unfold operator_post_inc. apply bind_no_raise; [| reflexivity].
  apply next_unique_minimiser_loop_no_raise.
Qed.

Lemma collect_no_raise (v : minimiser_view) (fuel : nat) :
  forall it, is_raise (collect v fuel it) = false.
Proof.
  induction fuel as [| fuel IH]; intros it; simpl; [reflexivity |].
  destruct (operator_eq_sentinel it); [reflexivity |].
  apply bind_no_raise; [apply operator_inc_no_raise |].
  intros it'. apply bind_no_raise; [apply IH | reflexivity].
Qed.

Lemma to_list_no_raise (v : minimiser_view) : is_raise (to_list v) = false.
Proof.
  unfold to_list. apply bind_no_raise; [apply begin_no_raise |].
  intros it. apply collect_no_raise.
Qed.

Lemma collect_fuel_free (v : minimiser_view) (fuel : nat) :
  forall it,
    length (urange1 v) - urng1_iterator it < fuel ->
    is_out_of_fuel (collect v fuel it) = false.
Proof.
  induction fuel as [| fuel IH]; intros it Hf; [lia |].
  simpl. destruct (operator_eq_sentinel it); [reflexivity |].
  apply bind_fuel_ok; [apply next_unique_minimiser_total |].
  intros it' Hinc.
  apply next_unique_minimiser_loop_Ok_inv in Hinc. destruct Hinc as (Hc & _).
  apply bind_fuel_ok; [apply IH; lia | reflexivity].
Qed.

Lemma to_list_fuel_free (v : minimiser_view) :
  is_out_of_fuel (to_list v) = false.
Proof.
  unfold to_list. apply bind_fuel_ok; [apply begin_fuel_free |].
  intros it _. apply collect_fuel_free. lia.
Qed.

(* ------------------------------------------------------------------------- *)
(** ** Iterating from an active state *)

Lemma active_is_minimum (v : minimiser_view) (it : basic_iterator) :
  active_inv v it ->
  is_minimum (minimiser_value it)
    (window_at (window_source v)
       (S (urng1_iterator it) - clamped_window_size v) (clamped_window_size v)).
Proof.
  intros [_ _ _ _ Hwin (Hnth & Hall)]. rewrite <- Hwin.
  split; [eapply nth_error_In; eauto | exact Hall].
Qed.

Lemma collect_ok (v : minimiser_view) :
  same_size v -> 0 < window_size v ->
  forall fuel it,
    active_inv v it ->
    length (urange1 v) - urng1_iterator it < fuel ->
    exists out,
      collect v fuel it = Ok (minimiser_value it :: out)
      /\ emitted v (S (urng1_iterator it) - clamped_window_size v)
           (minimiser_value it :: out).
Proof.
  intros Hs Hw. induction fuel as [| fuel IH]; intros it Hinv Hf; [lia |].
  simpl. rewrite (active_not_at_end v it Hinv).
  destruct (operator_inc_ok v it Hs Hw Hinv) as (it' & Hinc & Hc & Hres).
  rewrite Hinc. cbn [bind].
  pose proof (active_is_minimum v it Hinv) as Hmin.
  assert (Hhere : S (urng1_iterator it) - clamped_window_size v
                  + clamped_window_size v <= length (urange1 v)).
  { destruct Hinv. lia. }
  destruct Hres as [(Hinv' & _) | Hex].
  - destruct (IH it' Hinv') as (out & Hrun & starts & Hall & Hsorted); [lia |].
    rewrite Hrun. cbn [bind]. unfold operator_deref.
    exists (minimiser_value it' :: out). split; [reflexivity |].
    exists ((S (urng1_iterator it) - clamped_window_size v) :: starts).
    split.
    + constructor; [repeat split; try apply Hmin; lia |].
      eapply Forall2_impl; [| exact Hall].
      intros x s (H1 & H2 & H3). repeat split; try apply H1; try lia.
    + constructor; [exact Hsorted |].
      clear - Hall Hc Hinv.
      destruct Hinv as [_ _ _ Hlo _ _].
      revert Hall. generalize (minimiser_value it' :: out).
      induction starts as [| s starts IHs]; intros l Hall; [constructor |].
      inversion Hall as [| ? ? l' ? (_ & H2 & _) Hrest]; subst.
      constructor; [lia | eapply IHs; eauto].
  - destruct (exhausted_at_end v it' Hex) as (Hend & _).
    destruct fuel as [| fuel]; [destruct Hinv; lia |].
    simpl. rewrite Hend. cbn [bind]. unfold operator_deref.
    exists []. split; [reflexivity |].
    exists [S (urng1_iterator it) - clamped_window_size v]. split.
    + constructor; [| constructor]. repeat split; try apply Hmin; lia.
    + constructor; constructor.
Qed.

Lemma to_list_ok (v : minimiser_view) :
  same_size v -> 0 < window_size v -> 0 < length (urange1 v) ->
  exists x out,
    to_list v = Ok (x :: out) /\ emitted v 0 (x :: out).
Proof.
  intros Hs Hw Hn.
  destruct (begin_ok v Hs Hw Hn) as (it & Hb & Hinv & _ & Hc).
  unfold to_list. rewrite Hb. cbn [bind].
  destruct (collect_ok v Hs Hw (S (length (urange1 v))) it Hinv)
    as (out & Hrun & Hem); [lia |].
  exists (minimiser_value it), out. split; [exact Hrun |].
  replace (S (urng1_iterator it) - clamped_window_size v) with 0 in Hem by lia.
  exact Hem.
Qed.

Lemma to_list_empty (v : minimiser_view) :
  length (urange1 v) = 0 -> to_list v = Ok [].
Proof.
  intros Hn. unfold to_list. rewrite (begin_empty v Hn). cbn [bind].
  rewrite Hn. reflexivity.
Qed.

(** A strictly increasing list of positions within [lo .. hi] has at most
    [hi + 1 - lo] entries. *)
Lemma sorted_positions_bound (starts : list nat) :
  StronglySorted lt starts ->
  forall lo hi,
    Forall (fun s => lo <= s <= hi) starts ->
    length starts <= hi + 1 - lo.
Proof.
  induction 1 as [| s starts Hsorted IH Hhd]; intros lo hi Hall; simpl;
    [lia |].
  inversion Hall as [| ? ? Hs Hrest]; subst.
  assert (Hrest' : Forall (fun t => S s <= t <= hi) starts).
  { rewrite Forall_forall in *. intros t Ht.
    specialize (Hhd t Ht). specialize (Hrest t Ht). lia. }
  specialize (IH (S s) hi Hrest'). lia.
Qed.

Lemma emitted_length (v : minimiser_view) (lo : nat) (out : list value_type) :
  emitted v lo out ->
  length out <= length (urange1 v) - clamped_window_size v + 1 - lo.
Proof.
  intros (starts & Hall & Hsorted).
  rewrite (Forall2_length Hall).
  apply sorted_positions_bound; [exact Hsorted |].
  clear Hsorted. induction Hall as [| x s out starts (_ & H1 & H2) _ IH];
    constructor; [lia | exact IH].
Qed.

(* ------------------------------------------------------------------------- *)
(** ** Further facts used by the main results *)

Lemma std_min_is_min (a b : value_type) : std_min a b = N.min a b.
Proof.
  unfold std_min. destruct (N.ltb_spec b a); lia.
Qed.

Lemma rightmost_min_min_element (l : list value_type) (i : nat) (x : value_type) :
  rightmost_min l i x -> i = min_element less_equal l.
Proof.
  intros H.
  assert (Hne : l <> []).
  { destruct H as (Hn & _). intros ->. destruct i; discriminate. }
  destruct (min_element_spec l Hne) as (y & Hy).
  apply (rightmost_min_unique l i _ x y H Hy).
Qed.

(** Scanning one more value: it replaces the candidate exactly when it is
    less than or equal to it. *)
Lemma min_element_snoc (l : list value_type) (y : value_type) :
  l <> [] ->
  min_element less_equal (l ++ [y])
  = if less_equal y (nth (min_element less_equal l) l 0%N)
    then length l
    else min_element less_equal l.
Proof.
  intros Hne. destruct (min_element_spec l Hne) as (x & Hx).
  assert (Hi : min_element less_equal l < length l).
  { destruct Hx as (Hn & _). apply nth_error_Some. congruence. }
  assert (Hnth : nth (min_element less_equal l) l 0%N = x).
  { destruct Hx as (Hn & _).
    rewrite (nth_error_nth' l 0%N Hi) in Hn. congruence. }
  rewrite Hnth. symmetry. apply rightmost_min_min_element with
    (x := if less_equal y x then y else x).
  unfold less_equal. destruct (N.leb_spec y x) as [Hle | Hgt].
  - eapply rightmost_min_snoc_le; eauto.
  - eapply rightmost_min_snoc_gt; eauto.
Qed.

Lemma rescan_Ok_spec (it it' : basic_iterator) :
  rescan it = Ok it' ->
  exists x,
    it' = set_minimiser it x (min_element less_equal (window_values it))
    /\ nth_error (window_values it) (min_element less_equal (window_values it))
       = Some x.
Proof.
  unfold rescan. intros H. apply bind_Ok_inv in H.
  destruct H as (x & Hx & H). exists x.
  split; [now inversion H | now apply deref_Ok_inv].
Qed.

(** After [window_first] on a positive size the tracked pair is the result
    of the full scan of the stored window. *)
Lemma window_first_scans (v : minimiser_view) (n : nat) (it it' : basic_iterator) :
  0 < n -> window_first v n it = Ok it' ->
  minimiser_position_offset it' = min_element less_equal (window_values it')
  /\ nth_error (window_values it') (minimiser_position_offset it')
     = Some (minimiser_value it').
Proof.
  intros Hn H. unfold window_first in H.
  destruct (Nat.eqb_spec n 0) as [He | _]; [lia |].
  apply bind_Ok_inv in H. destruct H as (it1 & _ & H).
  apply bind_Ok_inv in H. destruct H as (x & _ & H).
  apply rescan_Ok_spec in H. destruct H as (m & -> & Hm).
  split; [reflexivity | exact Hm].
Qed.

(** The same after a call of [next_minimiser] that found offset 0 and did
    not reach the end. *)
Lemma next_minimiser_rescans (v : minimiser_view) (it it' : basic_iterator)
    (b : bool) :
  minimiser_position_offset it = 0 ->
  next_minimiser v it = Ok (b, it') ->
  urng1_iterator it' <> urng1_sentinel it' ->
  b = true
  /\ minimiser_position_offset it' = min_element less_equal (window_values it')
  /\ nth_error (window_values it') (minimiser_position_offset it')
     = Some (minimiser_value it').
Proof.
  intros Hoff H Hne.
  pose proof (next_minimiser_Ok_inv v it it' b H) as (Hc & Hsen & _).
  unfold next_minimiser in H.
  apply bind_Ok_inv in H. destruct H as (it1 & Hadv & H).
  apply advance_window_inv in Hadv. destruct Hadv as (-> & _).
  change (urng1_iterator (advanced v it)) with (S (urng1_iterator it)) in H.
  change (urng1_sentinel (advanced v it)) with (urng1_sentinel it) in H.
  destruct (Nat.eqb_spec (S (urng1_iterator it)) (urng1_sentinel it));
    [congruence |].
  apply bind_Ok_inv in H. destruct H as (x & _ & H).
  apply bind_Ok_inv in H. destruct H as (d & _ & H).
  cbn [minimiser_position_offset set_window_values] in H.
  change (minimiser_position_offset (advanced v it))
    with (minimiser_position_offset it) in H.
  rewrite Hoff in H. cbn [Nat.eqb] in H.
  apply bind_Ok_inv in H. destruct H as (it3 & Hres & H).
  apply rescan_Ok_spec in Hres. destruct Hres as (m & -> & Hm).
  inversion H; subst. auto.
Qed.

(* ------------------------------------------------------------------------- *)
(** ** Main results *)

Lemma minimiser_fn_Ok (r1 : list value_type) (w : nat) :
  w <> 1 -> minimiser_fn r1 w = Ok (Build_view r1 None w).
Proof.
  intros Hw. unfold minimiser_fn.
  destruct (Nat.eqb_spec w 1); [contradiction | reflexivity].
Qed.

(** C1. For a single source of length N and a window size w with
    1 < w <= N, iterating the view yields at most N - w + 1 values; each is
    the minimum of a window of length w of the source, and the windows are
    met at strictly increasing start positions (left to right). *)
Theorem single_source_yields_window_minima (src : list value_type) (w : nat) :
  1 < w -> w <= length src ->
  exists out starts,
    run_single src w = Ok out
    /\ length out <= length src - w + 1
    /\ Forall2 (fun x s =>
                  s + w <= length src /\ is_minimum x (window_at src s w))
               out starts
    /\ StronglySorted lt starts.
Proof.
  intros Hw Hn. unfold run_single.
  rewrite minimiser_fn_Ok by lia. cbn [bind].
  set (v := Build_view src None w).
  assert (Hs : same_size v) by exact I.
  assert (Hcl : clamped_window_size v = w)
    by (unfold clamped_window_size; simpl; lia).
  destruct (to_list_ok v Hs) as (x & out & Hrun & Hem); [simpl; lia .. |].
  pose proof (emitted_length v 0 _ Hem) as Hlen.
  destruct Hem as (starts & Hall & Hsorted).
  exists (x :: out), starts. rewrite Hcl in *. simpl urange1 in *.
  repeat split; auto; [lia |].
  eapply Forall2_impl; [| exact Hall].
  intros y s (H1 & _ & H2). split; [exact H2 | exact H1].
Qed.

Lemma single_source_yields_window_minima_witness :
  1 < 4 /\ 4 <= length reference_source1
  /\ exists out starts,
       run_single reference_source1 4 = Ok out
       /\ length out <= length reference_source1 - 4 + 1
       /\ Forall2 (fun x s =>
                     s + 4 <= length reference_source1
                     /\ is_minimum x (window_at reference_source1 s 4))
                  out starts
       /\ StronglySorted lt starts.
Proof.
  assert (H1 : 1 < 4) by lia.
  assert (H2 : 4 <= length reference_source1) by (simpl; lia).
  split; [exact H1 | split; [exact H2 |]].
  exact (single_source_yields_window_minima reference_source1 4 H1 H2).
Defined.

(** C2. The documented single-source example: window size 4 over
    [28,100,9,23,4,1,72,37,8] yields exactly [9,4,1]. *)
Theorem single_source_reference_case :
  run_single reference_source1 4 = Ok [9; 4; 1]%N.
Proof. vm_compute. reflexivity. Qed.

(** C3, as the claim states it: construction does not succeed for the two
    documented ranges, and the iteration does not yield [2,4,1]. *)
Lemma dual_source_reference_case_fails :
  ~ ((exists v, minimiser_view_dual reference_source1 reference_source2 4 = Ok v)
     /\ run_dual reference_source1 reference_source2 4 = Ok [2; 4; 1]%N).
Proof.
  intros ((v & Hv) & _). vm_compute in Hv. discriminate.
Qed.

(** C3, amended. The two documented ranges have 9 and 8 values, so the
    constructor raises [invalid_argument] and nothing is yielded. With two
    ranges each window value is the minimum of the two values at the
    synchronized positions; with the first range cut to its first 8 values
    the view yields [2,1]. *)
Theorem dual_source_reference_case :
  length reference_source1 = 9 /\ length reference_source2 = 8
  /\ minimiser_view_dual reference_source1 reference_source2 4
     = Raise (invalid_argument sizes_differ)
  /\ run_dual reference_source1 reference_source2 4
     = Raise (invalid_argument sizes_differ)
  /\ (forall v r2 it a b,
         urange2 v = Some r2 ->
         nth_error (urange1 v) (urng1_iterator it) = Some a ->
         nth_error r2 (urng2_iterator it) = Some b ->
         window_value v it = Ok (N.min a b))
  /\ run_dual (firstn 8 reference_source1) reference_source2 4
     = Ok [2; 1]%N.
Proof.
  repeat split; try (vm_compute; reflexivity).
  intros v r2 it a b Hr2 Ha Hb. unfold window_value. rewrite Hr2.
  rewrite (deref_Ok _ _ _ Ha), (deref_Ok _ _ _ Hb). cbn [bind].
  now rewrite std_min_is_min.
Qed.

Lemma dual_source_reference_case_witness :
  window_value (Build_view [28; 100]%N (Some [30; 2]%N) 2)
    (Build_iterator 0%N 0 1 2 1 [28]%N)
  = Ok (N.min 100 2).
Proof.
  refine (proj1 (proj2 (proj2 (proj2 (proj2 dual_source_reference_case))))
            (Build_view [28; 100]%N (Some [30; 2]%N) 2) [30; 2]%N
            (Build_iterator 0%N 0 1 2 1 [28]%N) 100%N 2%N _ _ _);
    reflexivity.
Defined.

(** C4. The full scan takes the first element as the initial candidate and
    replaces it whenever a later element is less than or equal to it, so the
    recorded (value, offset) is the rightmost occurrence of the minimum. It
    is what [window_first] records for the initial window and what
    [next_minimiser] records whenever it rescans. *)
Theorem full_scan_records_rightmost_minimum (window : list value_type) :
  window <> [] ->
  min_element less_equal (firstn 1 window) = 0
  /\ (forall y,
        min_element less_equal (window ++ [y])
        = if less_equal y (nth (min_element less_equal window) window 0%N)
          then length window
          else min_element less_equal window)
  /\ (exists m,
        rightmost_min window (min_element less_equal window) m
        /\ forall it,
             window_values it = window ->
             rescan it
             = Ok (set_minimiser it m (min_element less_equal window)))
  /\ (forall v n it it',
        0 < n -> window_first v n it = Ok it' -> window_values it' = window ->
        rightmost_min window (minimiser_position_offset it')
          (minimiser_value it'))
  /\ (forall v it it' b,
        minimiser_position_offset it = 0 ->
        next_minimiser v it = Ok (b, it') ->
        urng1_iterator it' <> urng1_sentinel it' ->
        window_values it' = window ->
        rightmost_min window (minimiser_position_offset it')
          (minimiser_value it')).
Proof.
  intros Hne.
  destruct (min_element_spec window Hne) as (m & Hm).
  assert (Hrec : forall it',
             window_values it' = window ->
             minimiser_position_offset it'
             = min_element less_equal (window_values it')
             /\ nth_error (window_values it') (minimiser_position_offset it')
                = Some (minimiser_value it') ->
             rightmost_min window (minimiser_position_offset it')
               (minimiser_value it')).
  { intros it' Hwin (Hoff & Hnth). rewrite Hwin in *.
    rewrite Hoff in *. destruct Hm as (Hn & Hrest).
    assert (minimiser_value it' = m) by congruence. subst m.
    split; assumption. }
  split; [destruct window; [congruence | reflexivity] |].
  split; [intros y; now apply min_element_snoc |].
  split.
  - exists m. split; [exact Hm |]. intros it Hwin.
    destruct (rescan_ok it) as (x & Hx & Hres); [congruence |].
    rewrite Hwin in *.
    destruct (rightmost_min_unique _ _ _ _ _ Hx Hm) as (_ & ->). exact Hres.
  - split.
    + intros v n it it' Hn Hrun Hwin.
      apply Hrec; [exact Hwin |]. eapply window_first_scans; eauto.
    + intros v it it' b Hoff Hrun Hnot Hwin.
      apply Hrec; [exact Hwin |].
      eapply next_minimiser_rescans; eauto.
Qed.

Lemma full_scan_records_rightmost_minimum_witness :
  [3; 1; 7; 1; 9]%N <> []
  /\ min_element less_equal [3; 1; 7; 1; 9]%N = 3
  /\ rightmost_min [3; 1; 7; 1; 9]%N 3 1%N.
Proof.
  assert (Hne : [3; 1; 7; 1; 9]%N <> []) by discriminate.
  split; [exact Hne |]. split; [reflexivity |].
  destruct (full_scan_records_rightmost_minimum [3; 1; 7; 1; 9]%N Hne)
    as (_ & _ & (m & Hm & _) & _).
  assert (Hv : m = 1%N).
  { destruct Hm as (Hn & _). vm_compute in Hn. now inversion Hn. }
  rewrite Hv in Hm. exact Hm.
Defined.

(** C5, as the claim states it: with window size 0 the constructor leaves
    the window empty, and the state returned by [begin()] over a non-empty
    source has not reached the end although offset 0 is not below the size
    of the stored window. *)
Lemma invariant_fails_for_window_size_zero :
  exists v it,
    minimiser_view_single [5]%N 0 = Ok v
    /\ reachable v it
    /\ operator_eq_sentinel it = false
    /\ ~ minimiser_position_offset it < length (window_values it).
Proof.
  exists (Build_view [5]%N None 0), (Build_iterator 0%N 0 0 1 0 []).
  split; [reflexivity |].
  split; [apply reach_begin; reflexivity |].
  split; [reflexivity |]. simpl. lia.
Qed.

(** C5, amended. For a view constructed with window size at least 1, in
    every state reached from [begin()] by increments whose primary cursor
    is not at the end: the offset is below the size of the stored window,
    the window holds the tracked value at that offset, the tracked pair is
    the rightmost minimum of the window (what the full scan returns), and
    the stored window is the window of the source ending at the cursor. *)
Theorem reachable_state_tracks_rightmost_minimum
    (r1 : list value_type) (r2 : option (list value_type)) (w : nat)
    (v : minimiser_view) (it : basic_iterator) :
  minimiser_view_ctor r1 r2 w = Ok v ->
  0 < w ->
  reachable v it ->
  operator_eq_sentinel it = false ->
  minimiser_position_offset it < length (window_values it)
  /\ nth_error (window_values it) (minimiser_position_offset it)
     = Some (minimiser_value it)
  /\ rightmost_min (window_values it) (minimiser_position_offset it)
       (minimiser_value it)
  /\ minimiser_position_offset it = min_element less_equal (window_values it)
  /\ length (window_values it) = Nat.min w (length r1)
  /\ window_values it
     = window_at (window_source v)
         (S (urng1_iterator it) - Nat.min w (length r1))
         (Nat.min w (length r1)).
Proof.
  intros Hctor Hw Hr Hne.
  apply minimiser_view_ctor_inv in Hctor. destruct Hctor as (Hv & Hs).
  assert (Hw' : 0 < window_size v) by (subst v; exact Hw).
  destruct (reachable_active v it Hs Hw' Hr Hne) as (Hinv & Hrm).
  pose proof (active_window_length v it Hs Hinv) as Hlen.
  assert (Hcl : clamped_window_size v = Nat.min w (length r1))
    by (subst v; reflexivity).
  rewrite Hcl in Hlen.
  pose proof Hrm as (Hnth & _).
  split; [apply nth_error_Some; congruence |].
  split; [exact Hnth |].
  split; [exact Hrm |].
  split; [now apply rightmost_min_min_element with (x := minimiser_value it) |].
  split; [exact Hlen |].
  rewrite <- Hcl. apply Hinv.
Qed.

Lemma reachable_state_tracks_rightmost_minimum_witness :
  let v := Build_view reference_source1 None 4 in
  let it := Build_iterator 4%N 3 4 9 0 [100; 9; 23; 4]%N in
  reachable v it
  /\ minimiser_position_offset it = min_element less_equal (window_values it)
  /\ rightmost_min (window_values it) 3 4%N.
Proof.
  intros v it.
  assert (Hctor : minimiser_view_ctor reference_source1 None 4 = Ok v)
    by reflexivity.
  assert (Hw : 0 < 4) by lia.
  assert (Hr : reachable v it).
  { apply reach_inc with (it := Build_iterator 9%N 2 3 9 0 [28; 100; 9; 23]%N).
    - apply reach_begin. vm_compute. reflexivity.
    - vm_compute. reflexivity. }
  assert (Hne : operator_eq_sentinel it = false) by reflexivity.
  pose proof (reachable_state_tracks_rightmost_minimum
                reference_source1 None 4 v it Hctor Hw Hr Hne)
    as (_ & _ & Hrm & Hoff & _).
  split; [exact Hr | split; [exact Hoff | exact Hrm]].
Defined.

(** The converting constructor is outside the states above: it resets the
    offset, so the copy need not satisfy the offset invariant. *)
Lemma basic_iterator_convert_resets_offset :
  let it := Build_iterator 1%N 1 2 4 0 [5; 1; 7]%N in
  tracks_rightmost it
  /\ minimiser_position_offset (basic_iterator_convert it) = 0
  /\ nth_error (window_values (basic_iterator_convert it)) 0
     <> Some (minimiser_value (basic_iterator_convert it)).
Proof.
  simpl. split; [| split; [reflexivity | discriminate]].
  unfold tracks_rightmost, rightmost_min. simpl.
  split; [reflexivity | split].
  - repeat constructor; lia.
  - intros [| [| [| j]]] y Hj Hy; simpl in Hy; try lia; try discriminate.
    + inversion Hy; subst. reflexivity.
    + destruct j; discriminate.
Qed.

(** C6. If the tracked minimiser sits at offset 0 when the window slides
    (and the slide does not reach the end), [next_minimiser] rescans the
    updated window and reports a change whatever the rescan finds, so the
    increment stops right there, at a state that is not the end; the value
    found may equal the one tracked before. *)
Theorem evicted_minimiser_forces_rescan
    (v : minimiser_view) (it it1 : basic_iterator)
    (new_value front : value_type) (rest : list value_type) :
  minimiser_position_offset it = 0 ->
  advance_window v it = Ok it1 ->
  urng1_iterator it1 <> urng1_sentinel it1 ->
  window_value v it1 = Ok new_value ->
  window_values it = front :: rest ->
  exists m,
    rightmost_min (rest ++ [new_value])
      (min_element less_equal (rest ++ [new_value])) m
    /\ next_minimiser v it
       = Ok (true,
             set_minimiser (set_window_values it1 (rest ++ [new_value])) m
               (min_element less_equal (rest ++ [new_value])))
    /\ operator_inc v it
       = Ok (set_minimiser (set_window_values it1 (rest ++ [new_value])) m
               (min_element less_equal (rest ++ [new_value])))
    /\ operator_eq_sentinel
         (set_minimiser (set_window_values it1 (rest ++ [new_value])) m
            (min_element less_equal (rest ++ [new_value])))
       = false.
Proof.
  intros Hoff Hadv Hne Hval Hwin.
  set (it2 := set_window_values it1 (rest ++ [new_value])).
  destruct (rescan_ok it2) as (m & Hm & Hres).
  { simpl. destruct rest; discriminate. }
  change (window_values it2) with (rest ++ [new_value]) in Hm, Hres.
  exists m. split; [exact Hm |].
  assert (Hstep : next_minimiser v it
                  = Ok (true,
                        set_minimiser it2 m
                          (min_element less_equal (rest ++ [new_value])))).
  { unfold next_minimiser. rewrite Hadv. cbn [bind].
    destruct (Nat.eqb_spec (urng1_iterator it1) (urng1_sentinel it1));
      [contradiction |].
    rewrite Hval. cbn [bind].
    pose proof (advance_window_inv v it it1 Hadv) as (Heq & _).
    assert (Hw1 : window_values it1 = front :: rest)
      by (rewrite Heq; exact Hwin).
    assert (Ho1 : minimiser_position_offset it1 = 0)
      by (rewrite Heq; exact Hoff).
    rewrite Hw1. cbn [bind pop_front]. unfold push_back. fold it2.
    change (minimiser_position_offset it2)
      with (minimiser_position_offset it1).
    rewrite Ho1. cbn [Nat.eqb]. rewrite Hres. reflexivity. }
  split; [exact Hstep |]. split.
  - unfold operator_inc, next_unique_minimiser.
    cbn [next_unique_minimiser_loop]. rewrite Hstep. reflexivity.
  - unfold operator_eq_sentinel. apply Nat.eqb_neq. exact Hne.
Qed.

Lemma evicted_minimiser_forces_rescan_witness :
  let v := Build_view [1; 5; 1]%N None 2 in
  let it := Build_iterator 1%N 0 1 3 0 [1; 5]%N in
  let it' := Build_iterator 1%N 1 2 3 0 [5; 1]%N in
  begin v = Ok it
  /\ next_minimiser v it = Ok (true, it')
  /\ operator_inc v it = Ok it'
  /\ operator_deref it' = operator_deref it
  /\ run_single [1; 5; 1]%N 2 = Ok [1; 1]%N.
Proof.
  intros v it it'.
  destruct (evicted_minimiser_forces_rescan v it
              (Build_iterator 1%N 0 2 3 0 [1; 5]%N) 1%N 1%N [5]%N)
    as (m & Hm & Hstep & Hinc & _);
    try reflexivity; try (simpl; lia).
  assert (Hv : m = 1%N).
  { destruct Hm as (Hn & _). vm_compute in Hn. now inversion Hn. }
  subst m.
  split; [reflexivity |].
  split; [exact Hstep |].
  split; [exact Hinc |].
  split; reflexivity.
Defined.

Lemma to_list_returns (v : minimiser_view) :
  same_size v -> 0 < window_size v -> exists out, to_list v = Ok out.
Proof.
  intros Hs Hw.
  destruct (Nat.eq_dec (length (urange1 v)) 0) as [Hn | Hn].
  - exists []. now apply to_list_empty.
  - destruct (to_list_ok v Hs Hw) as (x & out & Hrun & _); [lia |].
    now exists (x :: out).
Qed.

(** C7, at the failing input. The size check of the constructors reads its
    parameters after the member initialisers have moved from them. Two
    ranges that a move empties both show distance 0: ranges of 3 and of 2
    values are accepted without an exception, and the traversal of the
    view so constructed then dereferences the second range at its end,
    which is undefined. This holds for all such ranges, whatever their
    lengths. With one range of each kind the check compares a length with
    0 and raises although the lengths agree. Only on ranges that a move
    leaves intact is the exception raised exactly when the lengths
    differ. *)
Theorem size_check_reads_moved_from_parameters :
  minimiser_view_ctor_moved
    (Build_range [1; 2; 3]%N owning_view)
    (Some (Build_range [1; 2]%N owning_view)) 2
  = Ok (Build_view [1; 2; 3]%N (Some [1; 2]%N) 2)
  /\ to_list (Build_view [1; 2; 3]%N (Some [1; 2]%N) 2) = Undefined
  /\ (forall r1 r2 w,
        minimiser_view_ctor_moved
          (Build_range r1 owning_view) (Some (Build_range r2 owning_view)) w
        = Ok (Build_view r1 (Some r2) w))
  /\ minimiser_view_ctor_moved
       (Build_range [1; 2; 3]%N ref_view)
       (Some (Build_range [4; 5; 6]%N owning_view)) 2
     = Raise (invalid_argument sizes_differ)
  /\ (forall r1 r2 w,
        minimiser_view_ctor_moved
          (Build_range r1 ref_view) (Some (Build_range r2 ref_view)) w
        = if length r1 =? length r2
          then Ok (Build_view r1 (Some r2) w)
          else Raise (invalid_argument sizes_differ)).
Proof.
  split; [reflexivity |].
  split; [vm_compute; reflexivity |].
  split; [intros r1 r2 w; reflexivity |].
  split; [reflexivity |].
  intros r1 r2 w. unfold minimiser_view_ctor_moved, moved_from. simpl.
  now destruct (length r1 =? length r2).
Qed.

(** C8, as the claim states it: an empty source is shorter than any
    positive window size, and the view over it yields nothing. *)
Lemma empty_source_yields_nothing :
  length (@nil value_type) < 2
  /\ run_single [] 2 = Ok []
  /\ ~ exists x, run_single [] 2 = Ok [x].
Proof.
  split; [simpl; lia |]. split; [reflexivity |].
  intros (x & Hx). vm_compute in Hx. discriminate.
Qed.

(** C8, amended. If the source is not empty and shorter than the window
    size, the window is clamped to the whole source and iterating the view
    yields exactly one value, the minimum of the entire source (with two
    ranges: of the position-wise minima). *)
Theorem short_source_yields_its_minimum
    (r1 : list value_type) (r2 : option (list value_type)) (w : nat)
    (v : minimiser_view) :
  minimiser_view_ctor r1 r2 w = Ok v ->
  0 < length r1 -> length r1 < w ->
  exists it x,
    begin v = Ok it
    /\ window_values it = window_source v
    /\ length (window_values it) = length r1
    /\ to_list v = Ok [x]
    /\ is_minimum x (window_source v)
    /\ (r2 = None -> run_single r1 w = Ok [x] /\ is_minimum x r1).
Proof.
  intros Hctor Hn Hlt.
  apply minimiser_view_ctor_inv in Hctor. destruct Hctor as (Hv & Hs).
  assert (Hr1 : urange1 v = r1) by (subst v; reflexivity).
  assert (Hw : window_size v = w) by (subst v; reflexivity).
  assert (Hcl : clamped_window_size v = length r1)
    by (unfold clamped_window_size; rewrite Hr1, Hw; lia).
  destruct (begin_ok v Hs) as (it & Hb & Hinv & _ & Hc);
    [lia | rewrite Hr1; lia |].
  assert (Hwin : window_values it = window_source v).
  { destruct Hinv as [_ _ _ _ Hwin _]. rewrite Hwin, Hcl.
    replace (S (urng1_iterator it) - length r1) with 0 by lia.
    rewrite <- Hr1, <- (window_source_length v Hs). apply window_at_all. }
  destruct (collect_ok v Hs) with (fuel := S (length (urange1 v))) (it := it)
    as (out & Hrun & Hem); [lia | exact Hinv | lia |].
  pose proof (emitted_length v _ _ Hem) as Hlen.
  rewrite Hcl, Hr1 in Hlen. simpl in Hlen.
  assert (out = []) by (destruct out; [reflexivity | simpl in Hlen; lia]).
  subst out.
  assert (Hmin : is_minimum (minimiser_value it) (window_source v)).
  { rewrite <- Hwin. destruct Hinv as [_ _ _ _ _ (Hnth & Hall)].
    split; [eapply nth_error_In; eauto | exact Hall]. }
  assert (Hlist : to_list v = Ok [minimiser_value it]).
  { unfold to_list. rewrite Hb. exact Hrun. }
  exists it, (minimiser_value it).
  split; [exact Hb |]. split; [exact Hwin |].
  split; [rewrite Hwin, (window_source_length v Hs), Hr1; reflexivity |].
  split; [exact Hlist |]. split; [exact Hmin |].
  intros Hnone. subst r2. unfold run_single.
  rewrite minimiser_fn_Ok by lia. cbn [bind]. rewrite <- Hv.
  split; [exact Hlist |]. subst v. exact Hmin.
Qed.

Lemma short_source_yields_its_minimum_witness :
  0 < length [5; 3; 8]%N /\ length [5; 3; 8]%N < 7
  /\ run_single [5; 3; 8]%N 7 = Ok [3]%N.
Proof.
  assert (H1 : 0 < length [5; 3; 8]%N) by (simpl; lia).
  assert (H2 : length [5; 3; 8]%N < 7) by (simpl; lia).
  split; [exact H1 |]. split; [exact H2 |].
  destruct (short_source_yields_its_minimum [5; 3; 8]%N None 7
              (Build_view [5; 3; 8]%N None 7) eq_refl H1 H2)
    as (it & x & _ & _ & _ & _ & _ & Hsingle).
  destruct (Hsingle eq_refl) as (Hrun & _).
  assert (Hx : x = 3%N).
  { vm_compute in Hrun. now inversion Hrun. }
  rewrite Hx in Hrun. exact Hrun.
Defined.

(** C9. Two iterators compare equal exactly when their primary cursors are
    equal and their stored windows have the same size. The middle conjunct
    of the source compares the right operand's secondary cursor with itself,
    so it is always true and no secondary cursor influences the result. *)
Theorem iterator_equality_ignores_secondary_cursor (lhs rhs : basic_iterator) :
  operator_eq lhs rhs
  = (urng1_iterator lhs =? urng1_iterator rhs)
    && (length (window_values lhs) =? length (window_values rhs))
  /\ (urng2_iterator rhs =? urng2_iterator rhs) = true
  /\ (forall p q,
        operator_eq (set_urng_iterators lhs (urng1_iterator lhs) p)
          (set_urng_iterators rhs (urng1_iterator rhs) q)
        = operator_eq lhs rhs)
  /\ operator_neq lhs rhs = negb (operator_eq lhs rhs).
Proof.
  assert (Heq : forall a b,
             operator_eq a b
             = (urng1_iterator a =? urng1_iterator b)
               && (length (window_values a) =? length (window_values b))).
  { intros a b. unfold operator_eq.
    now rewrite Nat.eqb_refl, andb_true_r. }
  split; [apply Heq |].
  split; [apply Nat.eqb_refl |].
  split; [| reflexivity].
  intros p q. rewrite !Heq. reflexivity.
Qed.





(* ------------------------------------------------------------------------- *)
(** ** Frame properties of the increment, for any state *)

Lemma next_minimiser_Ok_frame (v : minimiser_view) (it it' : basic_iterator)
    (b : bool) :
  next_minimiser v it = Ok (b, it') ->
  length (window_values it') = length (window_values it)
  /\ (synced v it -> synced v it')
  /\ (b = false -> minimiser_value it' = minimiser_value it).
Proof.
  unfold next_minimiser. intros H.
  apply bind_Ok_inv in H. destruct H as (it1 & Hadv & H).
  apply advance_window_inv in Hadv. destruct Hadv as (-> & _).
  pose proof (synced_advanced v it) as Hsy.
  destruct (urng1_iterator (advanced v it) =? urng1_sentinel (advanced v it)).
  - inversion H; subst. repeat split; auto; try discriminate.
  - apply bind_Ok_inv in H. destruct H as (x & _ & H).
    apply bind_Ok_inv in H. destruct H as (d & Hpop & H).
    change (window_values (advanced v it)) with (window_values it) in Hpop.
    assert (Hlen : length (push_back d x) = length (window_values it)).
    { unfold pop_front in Hpop. destruct (window_values it) as [| y d'];
        inversion Hpop; subst. unfold push_back.
      rewrite length_app. simpl. lia. }
    cbn [minimiser_position_offset minimiser_value set_window_values] in H.
    destruct (minimiser_position_offset (advanced v it) =? 0).
    + apply bind_Ok_inv in H. destruct H as (it3 & Hres & H).
      apply rescan_Ok_inv in Hres. destruct Hres as (m & ->).
      inversion H; subst. repeat split; auto; try discriminate.
    + destruct (N.ltb x (minimiser_value (advanced v it)));
        inversion H; subst; repeat split; auto; try discriminate.
Qed.

Lemma next_unique_minimiser_loop_Ok_frame (v : minimiser_view) (fuel : nat) :
  forall it it',
    next_unique_minimiser_loop v fuel it = Ok it' ->
    length (window_values it') = length (window_values it)
    /\ (synced v it -> synced v it').
Proof.
  induction fuel as [| fuel IH]; intros it it' H; simpl in H; [discriminate |].
  apply bind_Ok_inv in H. destruct H as ([b it1] & Hstep & H). simpl in H.
  apply next_minimiser_Ok_frame in Hstep. destruct Hstep as (Hlen & Hsy & _).
  destruct b.
  - inversion H; subst. auto.
  - apply IH in H. destruct H as (Hlen' & Hsy'). split; [lia | auto].
Qed.

Lemma begin_window_size_zero (v : minimiser_view) :
  window_size v = 0 -> begin v = Ok (initial_iterator v).
Proof.
  intros Hw. unfold begin, basic_iterator_ctor. rewrite Hw.
  rewrite Nat.min_0_l. reflexivity.
Qed.

Lemma synced_initial (v : minimiser_view) : synced v (initial_iterator v).
Proof. unfold synced. destruct (urange2 v); reflexivity. Qed.

(** What [begin()] returns, for every window size. *)
Lemma begin_facts (v : minimiser_view) :
  same_size v ->
  exists it,
    begin v = Ok it
    /\ urng1_sentinel it = length (urange1 v)
    /\ urng1_iterator it = clamped_window_size v - 1
    /\ length (window_values it) = clamped_window_size v
    /\ synced v it.
Proof.
  intros Hs.
  destruct (Nat.eq_dec (window_size v) 0) as [Hw | Hw].
  - exists (initial_iterator v). rewrite (begin_window_size_zero v Hw).
    unfold clamped_window_size. rewrite Hw, Nat.min_0_l.
    repeat split. apply synced_initial.
  - destruct (Nat.eq_dec (length (urange1 v)) 0) as [Hn | Hn].
    + exists (initial_iterator v). rewrite (begin_empty v Hn).
      unfold initial_iterator, clamped_window_size. rewrite Hn, Nat.min_0_r.
      repeat split. apply synced_initial.
    + destruct (begin_ok v Hs) as (it & Hb & Hinv & _ & Hc); [lia | lia |].
      exists it. split; [exact Hb |].
      pose proof (active_window_length v it Hs Hinv) as Hlen.
      destruct Hinv as [Hsen _ Hsy _ _ _].
      repeat split; auto. lia.
Qed.

(* ------------------------------------------------------------------------- *)
(** ** Further properties of the view and its iterators *)

(** Structure of the reachable states of a view that passed the size
    check, whatever its window size. *)
Lemma reachable_facts (v : minimiser_view) (it : basic_iterator) :
  same_size v ->
  reachable v it ->
  urng1_sentinel it = length (urange1 v)
  /\ urng1_iterator it <= length (urange1 v)
  /\ length (window_values it) = clamped_window_size v
  /\ synced v it.
Proof.
  intros Hs Hr. induction Hr as [it Hb | it it' Hr IH Hinc].
  - destruct (begin_facts v Hs) as (it0 & Hb0 & Hsen & Hc & Hlen & Hsy).
    rewrite Hb0 in Hb. inversion Hb; subst it0.
    repeat split; auto. unfold clamped_window_size in Hc. lia.
  - destruct IH as (Hsen & Hc & Hlen & Hsy).
    unfold operator_inc, next_unique_minimiser in Hinc.
    pose proof (next_unique_minimiser_loop_Ok_inv v _ it it' Hinc)
      as (Hc' & Hsen' & _).
    pose proof (next_unique_minimiser_loop_Ok_frame v _ it it' Hinc)
      as (Hlen' & Hsy').
    repeat split; auto; try lia; congruence.
Qed.

(** X5. In every state reached from [begin()] by increments, for every
    window size: the stored sentinel is the end of the first range, the
    primary cursor is within the range or at its end, the stored window has
    exactly [min(window_size, N)] values, and with two ranges the secondary
    cursor is at the same position as the primary one. *)
Theorem reachable_state_structure
    (r1 : list value_type) (r2 : option (list value_type)) (w : nat)
    (v : minimiser_view) (it : basic_iterator) :
  minimiser_view_ctor r1 r2 w = Ok v ->
  reachable v it ->
  urng1_sentinel it = length r1
  /\ urng1_iterator it <= length r1
  /\ length (window_values it) = Nat.min w (length r1)
  /\ (second_range_is_given v = true -> urng2_iterator it = urng1_iterator it).
Proof.
  intros Hctor Hr.
  apply minimiser_view_ctor_inv in Hctor. destruct Hctor as (Hv & Hs).
  destruct (reachable_facts v it Hs Hr) as (H1 & H2 & H3 & H4).
  assert (Hr1 : urange1 v = r1) by (subst v; reflexivity).
  assert (Hcl : clamped_window_size v = Nat.min w (length r1))
    by (subst v; reflexivity).
  rewrite Hr1 in H1, H2. rewrite Hcl in H3.
  repeat split; auto.
  unfold second_range_is_given, synced in *.
  destruct (urange2 v); [auto | discriminate].
Qed.

Lemma reachable_state_structure_witness :
  let v := Build_view [28; 100; 9]%N (Some [30; 2; 11]%N) 2 in
  let it := Build_iterator 2%N 1 1 3 1 [28; 2]%N in
  reachable v it
  /\ urng1_sentinel it = 3
  /\ urng1_iterator it <= 3
  /\ length (window_values it) = 2
  /\ urng2_iterator it = urng1_iterator it.
Proof.
  intros v it.
  assert (Hr : reachable v it) by (apply reach_begin; reflexivity).
  pose proof (reachable_state_structure [28; 100; 9]%N (Some [30; 2; 11]%N) 2
                v it eq_refl Hr) as (H1 & H2 & H3 & H4).
  split; [exact Hr |]. split; [exact H1 |]. split; [exact H2 |].
  split; [exact H3 | exact (H4 eq_refl)].
Defined.

(** X6. Incrementing an iterator that has reached the end is undefined: on
    a reachable iterator that compares equal to the sentinel neither
    [operator++()] nor [operator++(int)] returns a state. *)
Theorem increment_at_end_is_undefined
    (r1 : list value_type) (r2 : option (list value_type)) (w : nat)
    (v : minimiser_view) (it : basic_iterator) :
  minimiser_view_ctor r1 r2 w = Ok v ->
  reachable v it ->
  operator_eq_sentinel it = true ->
  operator_inc v it = Undefined /\ operator_post_inc v it = Undefined.
Proof.
  intros Hctor Hr Hend.
  apply minimiser_view_ctor_inv in Hctor. destruct Hctor as (_ & Hs).
  destruct (reachable_facts v it Hs Hr) as (Hsen & _).
  apply Nat.eqb_eq in Hend.
  assert (Hstep : next_minimiser v it = Undefined).
  { unfold next_minimiser, advance_window, incr.
    rewrite Hend, Hsen, Nat.ltb_irrefl. reflexivity. }
  assert (Hinc : operator_inc v it = Undefined).
  { unfold operator_inc, next_unique_minimiser.
    cbn [next_unique_minimiser_loop]. rewrite Hstep. reflexivity. }
  split; [exact Hinc |].
  unfold operator_post_inc. unfold operator_inc in Hinc. now rewrite Hinc.
Qed.

Lemma increment_at_end_is_undefined_witness :
  let v := Build_view [5; 3; 8]%N None 7 in
  let it := Build_iterator 3%N 1 3 3 0 [5; 3; 8]%N in
  reachable v it /\ operator_inc v it = Undefined.
Proof.
  intros v it.
  assert (Hr : reachable v it).
  { apply reach_inc with (it := Build_iterator 3%N 1 2 3 0 [5; 3; 8]%N).
    - apply reach_begin. vm_compute. reflexivity.
    - vm_compute. reflexivity. }
  split; [exact Hr |].
  exact (proj1 (increment_at_end_is_undefined [5; 3; 8]%N None 7 v it
                  eq_refl Hr eq_refl)).
Defined.

(** X4. [begin()] of a constructed view always returns an iterator, for
    every window size, and that iterator equals the sentinel exactly when
    the first range is empty. Over an empty range the traversal yields
    nothing; over a non-empty range with a window size of at least 1 it
    yields at least one value. *)
Theorem view_is_empty_iff_source_is_empty
    (r1 : list value_type) (r2 : option (list value_type)) (w : nat)
    (v : minimiser_view) :
  minimiser_view_ctor r1 r2 w = Ok v ->
  exists it,
    begin v = Ok it
    /\ operator_eq_sentinel it = (length r1 =? 0)
    /\ (length r1 = 0 -> to_list v = Ok [])
    /\ (0 < w -> 0 < length r1 -> exists x out, to_list v = Ok (x :: out)).
Proof.
  intros Hctor.
  apply minimiser_view_ctor_inv in Hctor. destruct Hctor as (Hv & Hs).
  assert (Hr1 : urange1 v = r1) by (subst v; reflexivity).
  assert (Hw : window_size v = w) by (subst v; reflexivity).
  destruct (begin_facts v Hs) as (it & Hb & Hsen & Hc & _ & _).
  exists it. split; [exact Hb |].
  unfold clamped_window_size in Hc. rewrite Hr1 in *. split.
  - unfold operator_eq_sentinel. rewrite Hsen, Hc.
    destruct (Nat.eqb_spec (length r1) 0) as [Hn | Hn].
    + apply Nat.eqb_eq. lia.
    + apply Nat.eqb_neq. lia.
  - split.
    + intros Hn. apply to_list_empty. now rewrite Hr1.
    + intros Hpos Hn.
      destruct (to_list_ok v Hs) as (x & out & Hrun & _);
        [lia | rewrite Hr1; lia |].
      now exists x, out.
Qed.

Lemma view_is_empty_iff_source_is_empty_witness :
  (exists it,
      begin (Build_view [] (Some []) 3) = Ok it
      /\ operator_eq_sentinel it = true)
  /\ to_list (Build_view [] (Some []) 3) = Ok [].
Proof.
  destruct (view_is_empty_iff_source_is_empty [] (Some []) 3
              (Build_view [] (Some []) 3) eq_refl)
    as (it & Hb & Hend & Hnil & _).
  split; [exists it; split; [exact Hb | exact Hend] |].
  exact (Hnil eq_refl).
Defined.

(** X7. Window size 0 is accepted by the constructors. [begin()] then
    fills nothing: the window stays empty and [operator*] returns the
    value-initialised 0. Over a range of one value the traversal yields
    that 0 and ends; over a longer range the first increment pops from the
    empty window, which is undefined. *)
Theorem window_size_zero_behaviour
    (r1 : list value_type) (r2 : option (list value_type))
    (v : minimiser_view) :
  minimiser_view_ctor r1 r2 0 = Ok v ->
  begin v = Ok (initial_iterator v)
  /\ window_values (initial_iterator v) = []
  /\ operator_deref (initial_iterator v) = 0%N
  /\ (length r1 = 1 -> to_list v = Ok [0%N])
  /\ (2 <= length r1 ->
      operator_inc v (initial_iterator v) = Undefined
      /\ to_list v = Undefined).
Proof.
  intros Hctor.
  apply minimiser_view_ctor_inv in Hctor. destruct Hctor as (Hv & Hs).
  assert (Hr1 : urange1 v = r1) by (subst v; reflexivity).
  assert (Hw : window_size v = 0) by (subst v; reflexivity).
  pose proof (begin_window_size_zero v Hw) as Hb.
  pose proof (synced_initial v) as Hsy.
  split; [exact Hb |]. split; [reflexivity |]. split; [reflexivity |].
  split.
  - intros Hn.
    assert (Hstep : next_minimiser v (initial_iterator v)
                    = Ok (true, advanced v (initial_iterator v))).
    { apply next_minimiser_at_end; auto; simpl; rewrite Hr1; lia. }
    unfold to_list. rewrite Hb. cbn [bind]. rewrite Hr1, Hn.
    cbn [collect]. unfold operator_eq_sentinel at 1. simpl urng1_iterator.
    simpl urng1_sentinel. rewrite Hr1, Hn. cbn [Nat.eqb].
    unfold operator_inc, next_unique_minimiser.
    cbn [next_unique_minimiser_loop]. rewrite Hstep. cbn [bind fst snd].
    unfold operator_eq_sentinel.
    change (urng1_iterator (advanced v (initial_iterator v))) with 1.
    change (urng1_sentinel (advanced v (initial_iterator v)))
      with (length (urange1 v)).
    rewrite Hr1, Hn. reflexivity.
  - intros Hn.
    assert (Hstep : next_minimiser v (initial_iterator v) = Undefined).
    { unfold next_minimiser.
      rewrite (advance_window_ok v _ Hs Hsy) by (simpl; rewrite Hr1; lia).
      cbn [bind].
      change (urng1_iterator (advanced v (initial_iterator v))) with 1.
      change (urng1_sentinel (advanced v (initial_iterator v)))
        with (length (urange1 v)).
      rewrite Hr1.
      destruct (Nat.eqb_spec 1 (length r1)) as [He | _]; [lia |].
      destruct (window_value_ok v (advanced v (initial_iterator v)) Hs)
        as (x & _ & Hx);
        [now apply synced_advanced | simpl; rewrite Hr1; lia |].
      rewrite Hx. reflexivity. }
    assert (Hinc : operator_inc v (initial_iterator v) = Undefined).
    { unfold operator_inc, next_unique_minimiser.
      cbn [next_unique_minimiser_loop]. rewrite Hstep. reflexivity. }
    split; [exact Hinc |].
    unfold to_list. rewrite Hb. cbn [bind collect].
    unfold operator_eq_sentinel at 1. simpl urng1_iterator.
    simpl urng1_sentinel. rewrite Hr1.
    destruct (Nat.eqb_spec 0 (length r1)) as [He | _]; [lia |].
    rewrite Hinc. reflexivity.
Qed.

Lemma window_size_zero_behaviour_witness :
  to_list (Build_view [7]%N None 0) = Ok [0%N]
  /\ to_list (Build_view [7; 4]%N None 0) = Undefined.
Proof.
  split.
  - exact (proj1 (proj2 (proj2 (proj2
             (window_size_zero_behaviour [7]%N None
                (Build_view [7]%N None 0) eq_refl)))) eq_refl).
  - assert (H2 : 2 <= length [7; 4]%N) by (simpl; lia).
    exact (proj2 (proj2 (proj2 (proj2 (proj2
             (window_size_zero_behaviour [7; 4]%N None
                (Build_view [7; 4]%N None 0) eq_refl)))) H2)).
Defined.

(* ------------------------------------------------------------------------- *)
(** ** Every window is accounted for *)

(** While an increment slides over windows without stopping, the value it
    started with stays a minimum of each of them. *)
Lemma next_unique_minimiser_loop_covers (v : minimiser_view) :
  same_size v -> 0 < window_size v ->
  forall fuel it,
    active_inv v it ->
    length (urange1 v) - urng1_iterator it <= fuel ->
    exists it',
      next_unique_minimiser_loop v fuel it = Ok it'
      /\ urng1_iterator it < urng1_iterator it'
      /\ (active_inv v it'
          \/ (exhausted_inv v it' /\ minimiser_value it' = minimiser_value it))
      /\ forall k,
           urng1_iterator it <= k < urng1_iterator it' ->
           k < length (urange1 v) ->
           is_minimum (minimiser_value it)
             (window_at (window_source v) (S k - clamped_window_size v)
                (clamped_window_size v)).
Proof.
  intros Hs Hw. induction fuel as [| fuel IH]; intros it Hinv Hf.
  - destruct Hinv. lia.
  - pose proof (active_is_minimum v it Hinv) as Hmin.
    simpl.
    destruct (Nat.eq_dec (S (urng1_iterator it)) (length (urange1 v)))
      as [Hend | Hnot].
    + rewrite next_minimiser_at_end; try apply Hinv; auto.
      2:{ destruct Hinv. congruence. }
      cbn [bind fst snd].
      exists (advanced v it). split; [reflexivity |].
      split; [simpl; lia |]. split.
      * right. split; [exists it; auto | reflexivity].
      * intros k Hk _. simpl in Hk.
        replace k with (urng1_iterator it) by lia. exact Hmin.
    + destruct (next_minimiser_slide v it Hs Hw Hinv)
        as (b & it1 & Hstep & Hinv1 & Hc1 & _); [destruct Hinv; lia |].
      rewrite Hstep. cbn [bind fst snd].
      pose proof (next_minimiser_Ok_frame v it it1 b Hstep) as (_ & _ & Hval).
      destruct b.
      * exists it1. split; [reflexivity |]. split; [lia |].
        split; [left; exact Hinv1 |].
        intros k Hk _. replace k with (urng1_iterator it) by lia. exact Hmin.
      * specialize (Hval eq_refl).
        destruct (IH it1 Hinv1) as (it' & Hrun & Hc' & Hres & Hcov); [lia |].
        exists it'. split; [exact Hrun |]. split; [lia |]. split.
        { destruct Hres as [H | (H & Hv)]; [left; exact H |].
          right. split; [exact H | congruence]. }
        intros k Hk Hkn.
        destruct (Nat.eq_dec k (urng1_iterator it)) as [-> | Hne];
          [exact Hmin |].
        rewrite <- Hval. apply Hcov; lia.
Qed.

Lemma collect_covers (v : minimiser_view) :
  same_size v -> 0 < window_size v ->
  forall fuel it,
    active_inv v it ->
    length (urange1 v) - urng1_iterator it < fuel ->
    exists out,
      collect v fuel it = Ok (minimiser_value it :: out)
      /\ (forall k,
            urng1_iterator it <= k < length (urange1 v) ->
            exists x,
              In x (minimiser_value it :: out)
              /\ is_minimum x
                   (window_at (window_source v) (S k - clamped_window_size v)
                      (clamped_window_size v)))
      /\ is_minimum (last (minimiser_value it :: out) 0%N)
           (window_at (window_source v)
              (length (urange1 v) - clamped_window_size v)
              (clamped_window_size v)).
Proof.
  intros Hs Hw. induction fuel as [| fuel IH]; intros it Hinv Hf; [lia |].
  simpl collect. rewrite (active_not_at_end v it Hinv).
  destruct (next_unique_minimiser_loop_covers v Hs Hw
              (S (length (urange1 v) - urng1_iterator it)) it Hinv)
    as (it' & Hinc & Hc & Hres & Hcov); [lia |].
  unfold operator_inc, next_unique_minimiser. rewrite Hinc. cbn [bind].
  unfold operator_deref.
  destruct Hres as [Hinv' | (Hex & Hval)].
  - pose proof (inv_cursor v it' Hinv') as Hlt'.
    destruct (IH it' Hinv') as (out & Hrun & Hcov' & Hlast); [lia |].
    rewrite Hrun. cbn [bind].
    exists (minimiser_value it' :: out). split; [reflexivity |]. split.
    + intros k Hk.
      destruct (Nat.lt_ge_cases k (urng1_iterator it')) as [Hlt | Hge].
      * exists (minimiser_value it). split; [left; reflexivity |].
        apply Hcov; lia.
      * destruct (Hcov' k) as (x & Hin & Hx); [lia |].
        exists x. split; [right; exact Hin | exact Hx].
    + exact Hlast.
  - destruct (exhausted_at_end v it' Hex) as (Hend & Hc').
    destruct fuel as [| fuel]; [destruct Hinv; lia |].
    simpl collect. rewrite Hend. cbn [bind].
    exists []. split; [reflexivity |]. split.
    + intros k Hk. exists (minimiser_value it).
      split; [left; reflexivity |]. apply Hcov; lia.
    + simpl last.
      replace (length (urange1 v) - clamped_window_size v)
        with (S (length (urange1 v) - 1) - clamped_window_size v)
        by (destruct Hinv; lia).
      apply Hcov; destruct Hinv; lia.
Qed.

(** X1. No window is skipped: for a constructed view with window size at
    least 1 over a non-empty range, the traversal returns a list in which
    the minimum of every window of [min(window_size, N)] consecutive window
    values occurs. *)
Theorem every_window_minimum_is_yielded
    (r1 : list value_type) (r2 : option (list value_type)) (w : nat)
    (v : minimiser_view) :
  minimiser_view_ctor r1 r2 w = Ok v ->
  0 < w -> 0 < length r1 ->
  exists out,
    to_list v = Ok out
    /\ forall s,
         s + Nat.min w (length r1) <= length r1 ->
         exists x,
           In x out
           /\ is_minimum x
                (window_at (window_source v) s (Nat.min w (length r1))).
Proof.
  intros Hctor Hw Hn.
  apply minimiser_view_ctor_inv in Hctor. destruct Hctor as (Hv & Hs).
  assert (Hr1 : urange1 v = r1) by (subst v; reflexivity).
  assert (Hw' : window_size v = w) by (subst v; reflexivity).
  assert (Hcl : clamped_window_size v = Nat.min w (length r1))
    by (subst v; reflexivity).
  destruct (begin_ok v Hs) as (it & Hb & Hinv & _ & Hc);
    [lia | rewrite Hr1; lia |].
  destruct (collect_covers v Hs) with (fuel := S (length (urange1 v)))
                                       (it := it)
    as (out & Hrun & Hcov & _); [lia | exact Hinv | lia |].
  exists (minimiser_value it :: out). split.
  - unfold to_list. rewrite Hb. exact Hrun.
  - intros s Hs'. rewrite <- Hcl in *. rewrite Hr1 in Hcov.
    destruct (Hcov (s + clamped_window_size v - 1)) as (x & Hin & Hx);
      [lia |].
    exists x. split; [exact Hin |].
    replace (S (s + clamped_window_size v - 1) - clamped_window_size v)
      with s in Hx by lia.
    exact Hx.
Qed.

Lemma every_window_minimum_is_yielded_witness :
  exists out,
    to_list (Build_view reference_source1 None 4) = Ok out
    /\ exists x, In x out /\ is_minimum x (window_at reference_source1 2 4).
Proof.
  assert (Hw : 0 < 4) by lia.
  assert (Hn : 0 < length reference_source1) by (simpl; lia).
  destruct (every_window_minimum_is_yielded reference_source1 None 4
              (Build_view reference_source1 None 4) eq_refl Hw Hn)
    as (out & Hrun & Hcov).
  exists out. split; [exact Hrun |].
  apply (Hcov 2). simpl. lia.
Defined.

(** X2. The traversal starts with the minimum of the first window and ends
    with the minimum of the last window (window size at least 1, non-empty
    range). *)
Theorem first_and_last_yielded_values
    (r1 : list value_type) (r2 : option (list value_type)) (w : nat)
    (v : minimiser_view) :
  minimiser_view_ctor r1 r2 w = Ok v ->
  0 < w -> 0 < length r1 ->
  exists x out,
    to_list v = Ok (x :: out)
    /\ is_minimum x (window_at (window_source v) 0 (Nat.min w (length r1)))
    /\ is_minimum (last (x :: out) 0%N)
         (window_at (window_source v)
            (length r1 - Nat.min w (length r1)) (Nat.min w (length r1))).
Proof.
  intros Hctor Hw Hn.
  apply minimiser_view_ctor_inv in Hctor. destruct Hctor as (Hv & Hs).
  assert (Hr1 : urange1 v = r1) by (subst v; reflexivity).
  assert (Hw' : window_size v = w) by (subst v; reflexivity).
  assert (Hcl : clamped_window_size v = Nat.min w (length r1))
    by (subst v; reflexivity).
  destruct (begin_ok v Hs) as (it & Hb & Hinv & _ & Hc);
    [lia | rewrite Hr1; lia |].
  destruct (collect_covers v Hs) with (fuel := S (length (urange1 v)))
                                       (it := it)
    as (out & Hrun & _ & Hlast); [lia | exact Hinv | lia |].
  exists (minimiser_value it), out. split.
  - unfold to_list. rewrite Hb. exact Hrun.
  - rewrite <- Hcl, <- Hr1. split; [| exact Hlast].
    pose proof (active_is_minimum v it Hinv) as Hmin.
    replace (S (urng1_iterator it) - clamped_window_size v) with 0 in Hmin
      by lia.
    exact Hmin.
Qed.

Lemma first_and_last_yielded_values_witness :
  exists x out,
    to_list (Build_view reference_source1 None 4) = Ok (x :: out)
    /\ is_minimum x (window_at reference_source1 0 4)
    /\ is_minimum (last (x :: out) 0%N) (window_at reference_source1 5 4).
Proof.
  assert (Hw : 0 < 4) by lia.
  assert (Hn : 0 < length reference_source1) by (simpl; lia).
  exact (first_and_last_yielded_values reference_source1 None 4
           (Build_view reference_source1 None 4) eq_refl Hw Hn).
Defined.

(* ------------------------------------------------------------------------- *)
(** ** Two ranges behave like one range of position-wise minima *)

Section DualAsSingle.

Variables (r1 r2 : list value_type) (w : nat).
Hypothesis same_length : length r1 = length r2.

Let v_dual : minimiser_view := Build_view r1 (Some r2) w.
Let v_single : minimiser_view := Build_view (pointwise_min r1 r2) None w.

Lemma pointwise_min_length : length (pointwise_min r1 r2) = length r1.
Proof.
  unfold pointwise_min. rewrite length_map, length_combine. lia.
Qed.

Lemma dual_same_size : same_size v_dual.
Proof. exact same_length. Qed.

Lemma window_value_dual_single (it : basic_iterator) :
  urng2_iterator it = urng1_iterator it ->
  window_value v_dual it = window_value v_single (drop_secondary it).
Proof.
  intros Hsy.
  destruct (Nat.lt_ge_cases (urng1_iterator it) (length r1)) as [Hlt | Hge].
  - destruct (window_value_ok v_dual it dual_same_size Hsy Hlt)
      as (x & Hx & Hwv).
    rewrite Hwv. unfold window_value. simpl.
    symmetry. apply deref_Ok. exact Hx.
  - unfold window_value, deref. simpl.
    assert (H1 : nth_error r1 (urng1_iterator it) = None)
      by (apply nth_error_None; exact Hge).
    assert (H2 : nth_error (pointwise_min r1 r2) (urng1_iterator it) = None)
      by (apply nth_error_None; rewrite pointwise_min_length; exact Hge).
    now rewrite H1, H2.
Qed.

Lemma advance_window_dual_single (it : basic_iterator) :
  urng2_iterator it = urng1_iterator it ->
  result_map drop_secondary (advance_window v_dual it)
  = advance_window v_single (drop_secondary it).
Proof.
  intros Hsy. unfold advance_window, incr. simpl.
  rewrite Hsy, pointwise_min_length, <- same_length.
  destruct (urng1_iterator it <? length r1); reflexivity.
Qed.

Lemma rescan_dual_single (it : basic_iterator) :
  result_map drop_secondary (rescan it) = rescan (drop_secondary it).
Proof.
  unfold rescan, deref. simpl.
  destruct (nth_error (window_values it) _); reflexivity.
Qed.

Lemma next_minimiser_dual_single (it : basic_iterator) :
  urng2_iterator it = urng1_iterator it ->
  result_map (fun p => (fst p, drop_secondary (snd p)))
    (next_minimiser v_dual it)
  = next_minimiser v_single (drop_secondary it).
Proof.
  intros Hsy. unfold next_minimiser.
  rewrite <- (advance_window_dual_single it Hsy).
  destruct (advance_window v_dual it) as [it1 | e | |] eqn:Hadv;
    try reflexivity.
  cbn [bind result_map].
  assert (Hsy1 : urng2_iterator it1 = urng1_iterator it1).
  { apply advance_window_inv in Hadv. destruct Hadv as (-> & _).
    simpl. now rewrite Hsy. }
  change (urng1_iterator (drop_secondary it1)) with (urng1_iterator it1).
  change (urng1_sentinel (drop_secondary it1)) with (urng1_sentinel it1).
  destruct (urng1_iterator it1 =? urng1_sentinel it1); [reflexivity |].
  rewrite <- (window_value_dual_single it1 Hsy1).
  destruct (window_value v_dual it1) as [x | e | |]; try reflexivity.
  cbn [bind].
  change (window_values (drop_secondary it1)) with (window_values it1).
  destruct (pop_front (window_values it1)) as [d | e | |]; try reflexivity.
  cbn [bind].
  change (set_window_values (drop_secondary it1) (push_back d x))
    with (drop_secondary (set_window_values it1 (push_back d x))).
  set (it2 := set_window_values it1 (push_back d x)).
  change (minimiser_position_offset (drop_secondary it2))
    with (minimiser_position_offset it2).
  change (minimiser_value (drop_secondary it2)) with (minimiser_value it2).
  change (window_values (drop_secondary it2)) with (window_values it2).
  destruct (minimiser_position_offset it2 =? 0).
  - rewrite <- (rescan_dual_single it2).
    destruct (rescan it2); reflexivity.
  - destruct (N.ltb x (minimiser_value it2)); reflexivity.
Qed.

Lemma next_unique_minimiser_loop_dual_single (fuel : nat) :
  forall it,
    urng2_iterator it = urng1_iterator it ->
    result_map drop_secondary (next_unique_minimiser_loop v_dual fuel it)
    = next_unique_minimiser_loop v_single fuel (drop_secondary it).
Proof.
  induction fuel as [| fuel IH]; intros it Hsy; [reflexivity |].
  cbn [next_unique_minimiser_loop].
  rewrite <- (next_minimiser_dual_single it Hsy).
  destruct (next_minimiser v_dual it) as [[b it1] | e | |] eqn:Hstep;
    try reflexivity.
  cbn [bind result_map fst snd].
  destruct b; [reflexivity |].
  apply IH.
  apply next_minimiser_Ok_frame in Hstep. destruct Hstep as (_ & Hkeep & _).
  exact (Hkeep Hsy).
Qed.

Lemma operator_inc_dual_single (it : basic_iterator) :
  urng2_iterator it = urng1_iterator it ->
  result_map drop_secondary (operator_inc v_dual it)
  = operator_inc v_single (drop_secondary it).
Proof.
  intros Hsy. unfold operator_inc, next_unique_minimiser.
  rewrite (next_unique_minimiser_loop_dual_single _ it Hsy).
  simpl urange1. now rewrite pointwise_min_length.
Qed.

Lemma collect_dual_single (fuel : nat) :
  forall it,
    urng2_iterator it = urng1_iterator it ->
    collect v_dual fuel it = collect v_single fuel (drop_secondary it).
Proof.
  induction fuel as [| fuel IH]; intros it Hsy; [reflexivity |].
  cbn [collect].
  change (operator_eq_sentinel (drop_secondary it))
    with (operator_eq_sentinel it).
  change (operator_deref (drop_secondary it)) with (operator_deref it).
  destruct (operator_eq_sentinel it); [reflexivity |].
  rewrite <- (operator_inc_dual_single it Hsy).
  destruct (operator_inc v_dual it) as [it' | e | |] eqn:Hinc;
    try reflexivity.
  cbn [bind result_map]. rewrite <- IH; [reflexivity |].
  unfold operator_inc, next_unique_minimiser in Hinc.
  apply next_unique_minimiser_loop_Ok_frame in Hinc.
  destruct Hinc as (_ & Hkeep). exact (Hkeep Hsy).
Qed.

Lemma window_first_loop_dual_single (n : nat) :
  forall it,
    urng2_iterator it = urng1_iterator it ->
    result_map drop_secondary (window_first_loop v_dual n it)
    = window_first_loop v_single n (drop_secondary it)
    /\ forall it',
         window_first_loop v_dual n it = Ok it' ->
         urng2_iterator it' = urng1_iterator it'.
Proof.
  induction n as [| n IH]; intros it Hsy.
  - split; [reflexivity |]. intros it' H. inversion H; subst. exact Hsy.
  - cbn [window_first_loop].
    rewrite <- (window_value_dual_single it Hsy).
    destruct (window_value v_dual it) as [x | e | |];
      try (split; [reflexivity | discriminate]).
    cbn [bind].
    change (window_values (drop_secondary it)) with (window_values it).
    change (set_window_values (drop_secondary it)
              (push_back (window_values it) x))
      with (drop_secondary
              (set_window_values it (push_back (window_values it) x))).
    set (it0 := set_window_values it (push_back (window_values it) x)).
    assert (Hsy0 : urng2_iterator it0 = urng1_iterator it0) by exact Hsy.
    rewrite <- (advance_window_dual_single it0 Hsy0).
    destruct (advance_window v_dual it0) as [it1 | e | |] eqn:Hadv;
      try (split; [reflexivity | discriminate]).
    cbn [bind result_map]. apply IH.
    apply advance_window_inv in Hadv. destruct Hadv as (-> & _).
    simpl. f_equal. exact Hsy.
Qed.

Lemma begin_dual_single :
  result_map drop_secondary (begin v_dual) = begin v_single.
Proof.
  unfold begin, basic_iterator_ctor, window_first. simpl urange1.
  simpl window_size. rewrite pointwise_min_length.
  destruct (Nat.min w (length r1 - 0) =? 0); [reflexivity |].
  set (it0 := Build_iterator 0%N 0 0 (length r1) 0 []).
  destruct (window_first_loop_dual_single
              (Nat.min w (length r1 - 0) - 1) it0 eq_refl) as (Hloop & Hsy).
  change (drop_secondary it0) with it0 in Hloop. rewrite <- Hloop.
  destruct (window_first_loop v_dual _ it0) as [it1 | e | |];
    try reflexivity.
  cbn [bind result_map].
  rewrite <- (window_value_dual_single it1 (Hsy it1 eq_refl)).
  destruct (window_value v_dual it1) as [x | e | |]; try reflexivity.
  cbn [bind].
  change (window_values (drop_secondary it1)) with (window_values it1).
  change (set_window_values (drop_secondary it1)
            (push_back (window_values it1) x))
    with (drop_secondary
            (set_window_values it1 (push_back (window_values it1) x))).
  apply rescan_dual_single.
Qed.

Lemma to_list_dual_single : to_list v_dual = to_list v_single.
Proof.
  unfold to_list. rewrite <- begin_dual_single.
  destruct (begin_facts v_dual dual_same_size) as (it & Hb & _ & _ & _ & Hsy).
  rewrite Hb. cbn [bind result_map]. simpl urange1.
  rewrite pointwise_min_length.
  apply collect_dual_single. exact Hsy.
Qed.

End DualAsSingle.

(** X3. A view over two ranges of equal length yields exactly what a view
    over the single range of their position-wise minima yields, for every
    window size; for window sizes other than 1 that is what the adaptor
    yields on that range. *)
Theorem dual_view_is_single_view_of_minima
    (r1 r2 : list value_type) (w : nat) :
  length r1 = length r2 ->
  run_dual r1 r2 w = to_list (Build_view (pointwise_min r1 r2) None w)
  /\ (w <> 1 -> run_dual r1 r2 w = run_single (pointwise_min r1 r2) w).
Proof.
  intros Hlen.
  assert (Hrun : run_dual r1 r2 w
                 = to_list (Build_view (pointwise_min r1 r2) None w)).
  { unfold run_dual, minimiser_view_dual. rewrite minimiser_view_ctor_ref.
    rewrite Hlen, Nat.eqb_refl. cbn [negb bind].
    apply to_list_dual_single. exact Hlen. }
  split; [exact Hrun |].
  intros Hw. rewrite Hrun. unfold run_single.
  now rewrite minimiser_fn_Ok.
Qed.

Lemma dual_view_is_single_view_of_minima_witness :
  run_dual (firstn 8 reference_source1) reference_source2 4
  = run_single [28; 2; 9; 23; 4; 1; 34; 37]%N 4.
Proof.
  assert (Hlen : length (firstn 8 reference_source1) = length reference_source2)
    by reflexivity.
  assert (Hw : 4 <> 1) by lia.
  exact (proj2 (dual_view_is_single_view_of_minima
                  (firstn 8 reference_source1) reference_source2 4 Hlen) Hw).
Defined.

(* ------------------------------------------------------------------------- *)
(** ** The converting constructor *)




(* ------------------------------------------------------------------------- *)
(** ** Equality of iterators of one view *)

Lemma reachable_steps (v : minimiser_view) (it : basic_iterator) :
  reachable v it -> exists n, steps v n = Ok it.
Proof.
  induction 1 as [it Hb | it it' Hr (n & Hn) Hinc].
  - now exists 0.
  - exists (S n). simpl. now rewrite Hn.
Qed.

Lemma steps_cursor_lt (v : minimiser_view) (n : nat) (a : basic_iterator) :
  steps v n = Ok a ->
  forall d b,
    steps v (n + S d) = Ok b -> urng1_iterator a < urng1_iterator b.
Proof.
  intros Ha. induction d as [| d IH]; intros b Hb.
  - rewrite Nat.add_1_r in Hb. simpl in Hb. rewrite Ha in Hb. cbn [bind] in Hb.
    unfold operator_inc, next_unique_minimiser in Hb.
    apply next_unique_minimiser_loop_Ok_inv in Hb. lia.
  - rewrite Nat.add_succ_r in Hb. simpl in Hb.
    apply bind_Ok_inv in Hb. destruct Hb as (m & Hm & Hinc).
    specialize (IH m Hm).
    unfold operator_inc, next_unique_minimiser in Hinc.
    apply next_unique_minimiser_loop_Ok_inv in Hinc. lia.
Qed.

(** X9. On iterators reached from [begin()] of one constructed view,
    [operator==] is decided by the primary cursors alone (the stored
    windows always have the same size), and two iterators that compare
    equal are the same iterator: same window, same tracked value and
    offset. *)
Theorem equal_iterators_are_identical
    (r1 : list value_type) (r2 : option (list value_type)) (w : nat)
    (v : minimiser_view) (it1 it2 : basic_iterator) :
  minimiser_view_ctor r1 r2 w = Ok v ->
  reachable v it1 -> reachable v it2 ->
  operator_eq it1 it2 = (urng1_iterator it1 =? urng1_iterator it2)
  /\ (operator_eq it1 it2 = true -> it1 = it2).
Proof.
  intros Hctor H1 H2.
  apply minimiser_view_ctor_inv in Hctor. destruct Hctor as (_ & Hs).
  destruct (reachable_facts v it1 Hs H1) as (_ & _ & Hl1 & _).
  destruct (reachable_facts v it2 Hs H2) as (_ & _ & Hl2 & _).
  assert (Heq : operator_eq it1 it2
                = (urng1_iterator it1 =? urng1_iterator it2)).
  { unfold operator_eq. rewrite Hl1, Hl2, !Nat.eqb_refl.
    now rewrite !andb_true_r. }
  split; [exact Heq |].
  rewrite Heq. intros Hc. apply Nat.eqb_eq in Hc.
  destruct (reachable_steps v it1 H1) as (n1 & Hn1).
  destruct (reachable_steps v it2 H2) as (n2 & Hn2).
  destruct (Nat.lt_trichotomy n1 n2) as [Hlt | [He | Hgt]].
  - replace n2 with (n1 + S (n2 - n1 - 1)) in Hn2 by lia.
    pose proof (steps_cursor_lt v n1 it1 Hn1 _ _ Hn2). lia.
  - subst n2. congruence.
  - replace n1 with (n2 + S (n1 - n2 - 1)) in Hn1 by lia.
    pose proof (steps_cursor_lt v n2 it2 Hn2 _ _ Hn1). lia.
Qed.

Lemma equal_iterators_are_identical_witness :
  let v := Build_view reference_source1 None 4 in
  let it := Build_iterator 4%N 3 4 9 0 [100; 9; 23; 4]%N in
  reachable v it /\ operator_eq it it = true.
Proof.
  intros v it.
  assert (Hr : reachable v it).
  { apply reach_inc with (it := Build_iterator 9%N 2 3 9 0 [28; 100; 9; 23]%N).
    - apply reach_begin. vm_compute. reflexivity.
    - vm_compute. reflexivity. }
  split; [exact Hr |].
  rewrite (proj1 (equal_iterators_are_identical reference_source1 None 4
                    v it it eq_refl Hr Hr)).
  apply Nat.eqb_refl.
Defined.

(* ------------------------------------------------------------------------- *)
(** ** [base()] *)

Lemma window_at_snoc (l : list value_type) (a m : nat) (x : value_type) :
  nth_error l (a + m) = Some x ->
  window_at l a (S m) = window_at l a m ++ [x].
Proof.
  intros H. unfold window_at. symmetry. apply firstn_snoc.
  now rewrite nth_error_skipn.
Qed.

(** X10. [base()] of an iterator that has not reached the end points at the
    element of the range that entered the window last: the window value at
    that position is the last value of the stored window. Once the end is
    reached, [base()] is the end of the first range. *)
Theorem base_points_at_last_window_element
    (r1 : list value_type) (r2 : option (list value_type)) (w : nat)
    (v : minimiser_view) (it : basic_iterator) :
  minimiser_view_ctor r1 r2 w = Ok v ->
  0 < w ->
  reachable v it ->
  (operator_eq_sentinel it = true -> base it = length r1)
  /\ (operator_eq_sentinel it = false ->
      exists x,
        nth_error (window_source v) (base it) = Some x
        /\ last (window_values it) 0%N = x
        /\ (r2 = None -> nth_error r1 (base it) = Some x)).
Proof.
  intros Hctor Hw Hr.
  apply minimiser_view_ctor_inv in Hctor. destruct Hctor as (Hv & Hs).
  assert (Hr1 : urange1 v = r1) by (subst v; reflexivity).
  assert (Hw' : 0 < window_size v) by (subst v; exact Hw).
  split.
  - intros Hend. destruct (reachable_facts v it Hs Hr) as (Hsen & _).
    apply Nat.eqb_eq in Hend. unfold base. congruence.
  - intros Hne.
    destruct (reachable_active v it Hs Hw' Hr Hne) as (Hinv & _).
    destruct Hinv as [_ Hc _ Hlo Hwin _].
    unfold base.
    destruct (nth_error (window_source v) (urng1_iterator it)) as [x |] eqn:Hx.
    2:{ apply nth_error_None in Hx.
        rewrite window_source_length in Hx by exact Hs. lia. }
    exists x. split; [reflexivity |]. split.
    + rewrite Hwin.
      assert (Hcl : 0 < clamped_window_size v)
        by (unfold clamped_window_size; lia).
      destruct (clamped_window_size v) as [| m]; [lia |].
      rewrite (window_at_snoc _ _ m x).
      * apply last_last.
      * rewrite <- Hx. f_equal. lia.
    + intros Hnone. subst v r2. exact Hx.
Qed.

Lemma base_points_at_last_window_element_witness :
  let v := Build_view reference_source1 None 4 in
  let it := Build_iterator 9%N 2 3 9 0 [28; 100; 9; 23]%N in
  reachable v it
  /\ exists x,
       nth_error (window_source v) (base it) = Some x
       /\ last (window_values it) 0%N = x
       /\ (@None (list value_type) = None ->
           nth_error reference_source1 (base it) = Some x).
Proof.
  intros v it.
  assert (Hr : reachable v it) by (apply reach_begin; reflexivity).
  assert (Hw : 0 < 4) by lia.
  split; [exact Hr |].
  exact (proj2 (base_points_at_last_window_element reference_source1 None 4
                  v it eq_refl Hw Hr) eq_refl).
Defined.

(* ------------------------------------------------------------------------- *)
(** ** Strictly increasing ranges: every window yields a value *)

Lemma nth_error_window_at (l : list value_type) (a n i : nat) :
  nth_error (window_at l a n) i
  = if i <? n then nth_error l (a + i) else None.
Proof.
  unfold window_at. now rewrite nth_error_firstn, nth_error_skipn.
Qed.

Lemma increasing_window_min (l : list value_type) (a n : nat) (x : value_type) :
  strictly_increasing l -> nth_error l a = Some x -> 0 < n ->
  rightmost_min (window_at l a n) 0 x.
Proof.
  intros Hinc Hx Hn. repeat split.
  - rewrite nth_error_window_at.
    destruct (Nat.ltb_spec 0 n); [| lia]. now rewrite Nat.add_0_r.
  - apply Forall_forall. intros y Hy.
    apply In_nth_error in Hy. destruct Hy as (i & Hi).
    rewrite nth_error_window_at in Hi.
    destruct (i <? n); [| discriminate].
    destruct i as [| i].
    + rewrite Nat.add_0_r in Hi.
      assert (y = x) by congruence. subst. lia.
    + assert (x < y)%N by (apply (Hinc a (a + S i) x y); auto; lia). lia.
  - intros j y Hj Hy. rewrite nth_error_window_at in Hy.
    destruct (j <? n); [| discriminate].
    apply (Hinc a (a + j) x y); auto. lia.
Qed.

(** If the tracked minimiser always sits at the front of the window, every
    slide rescans and every window yields its front value. *)
Lemma collect_offset_zero (v : minimiser_view) :
  same_size v -> 0 < window_size v ->
  (forall it,
      active_inv v it -> tracks_rightmost it ->
      minimiser_position_offset it = 0) ->
  forall fuel it,
    active_inv v it -> tracks_rightmost it ->
    length (urange1 v) - urng1_iterator it < fuel ->
    collect v fuel it
    = Ok (window_at (window_source v)
            (S (urng1_iterator it) - clamped_window_size v)
            (length (urange1 v) - urng1_iterator it)).
Proof.
  intros Hs Hw Hfront.
  induction fuel as [| fuel IH]; intros it Hinv Hrm Hf; [lia |].
  pose proof (inv_cursor v it Hinv) as Hc.
  pose proof (inv_lower v it Hinv) as Hlo.
  pose proof (inv_sentinel v it Hinv) as Hsen.
  pose proof (inv_synced v it Hinv) as Hsy.
  pose proof (Hfront it Hinv Hrm) as Hoff.
  assert (Hpos : 0 < clamped_window_size v)
    by (unfold clamped_window_size; lia).
  set (a := S (urng1_iterator it) - clamped_window_size v) in *.
  assert (Hx : nth_error (window_source v) a = Some (minimiser_value it)).
  { destruct Hrm as (Hnth & _). rewrite Hoff, (inv_window v it Hinv) in Hnth.
    fold a in Hnth. rewrite nth_error_window_at in Hnth.
    destruct (Nat.ltb_spec 0 (clamped_window_size v)); [| lia].
    now rewrite Nat.add_0_r in Hnth. }
  cbn [collect]. rewrite (active_not_at_end v it Hinv).
  unfold operator_deref.
  replace (length (urange1 v) - urng1_iterator it)
    with (S (length (urange1 v) - urng1_iterator it - 1)) by lia.
  rewrite (window_at_cons _ _ _ _ Hx).
  unfold operator_inc, next_unique_minimiser.
  cbn [next_unique_minimiser_loop].
  destruct (Nat.eq_dec (S (urng1_iterator it)) (length (urange1 v)))
    as [Hend | Hnot].
  - rewrite next_minimiser_at_end by (auto; congruence).
    cbn [bind fst snd].
    destruct fuel as [| fuel]; [lia |].
    cbn [collect]. unfold operator_eq_sentinel.
    change (urng1_iterator (advanced v it)) with (S (urng1_iterator it)).
    change (urng1_sentinel (advanced v it)) with (urng1_sentinel it).
    rewrite Hsen, Hend, Nat.eqb_refl. cbn [bind].
    replace (length (urange1 v) - urng1_iterator it - 1) with 0 by lia.
    reflexivity.
  - destruct (next_minimiser_slide v it Hs Hw Hinv)
      as (b & it1 & Hstep & Hinv1 & Hc1 & Hb); [lia |].
    pose proof (inv_sentinel v it1 Hinv1) as Hsen1.
    destruct (next_minimiser_rescans v it it1 b Hoff Hstep) as (-> & _);
      [lia |].
    rewrite Hstep. cbn [bind fst snd].
    rewrite (IH it1 Hinv1 (Hb eq_refl)) by lia. cbn [bind].
    do 3 f_equal; lia.
Qed.

Lemma collect_increasing (v : minimiser_view) :
  same_size v -> 0 < window_size v ->
  strictly_increasing (window_source v) ->
  forall fuel it,
    active_inv v it -> tracks_rightmost it ->
    length (urange1 v) - urng1_iterator it < fuel ->
    collect v fuel it
    = Ok (window_at (window_source v)
            (S (urng1_iterator it) - clamped_window_size v)
            (length (urange1 v) - urng1_iterator it)).
Proof.
  intros Hs Hw Hincr. apply collect_offset_zero; auto.
  intros it Hinv Hrm.
  pose proof (inv_cursor v it Hinv) as Hc.
  pose proof (inv_lower v it Hinv) as Hlo.
  assert (Hpos : 0 < clamped_window_size v)
    by (unfold clamped_window_size; lia).
  set (a := S (urng1_iterator it) - clamped_window_size v) in *.
  destruct (nth_error (window_source v) a) as [x |] eqn:Hx.
  2:{ apply nth_error_None in Hx.
      rewrite window_source_length in Hx by exact Hs. lia. }
  pose proof (increasing_window_min _ a (clamped_window_size v) x
                Hincr Hx Hpos) as Hmin.
  unfold tracks_rightmost in Hrm. rewrite (inv_window v it Hinv) in Hrm.
  fold a in Hrm.
  destruct (rightmost_min_unique _ _ _ _ _ Hrm Hmin); auto.
Qed.

(** X11. Over a strictly increasing range (window size at least 1, range
    not empty) the minimiser leaves the window at every slide, so every
    window yields a value: the traversal returns the first
    [N - min(w, N) + 1] window values, one per window. The bound on the
    number of yielded values is attained. *)
Theorem increasing_source_yields_every_window
    (r1 : list value_type) (r2 : option (list value_type)) (w : nat)
    (v : minimiser_view) :
  minimiser_view_ctor r1 r2 w = Ok v ->
  0 < w -> 0 < length r1 ->
  strictly_increasing (window_source v) ->
  exists out,
    to_list v = Ok out
    /\ out = firstn (length r1 - Nat.min w (length r1) + 1) (window_source v)
    /\ length out = length r1 - Nat.min w (length r1) + 1.
Proof.
  intros Hctor Hw Hn Hincr.
  apply minimiser_view_ctor_inv in Hctor. destruct Hctor as (Hv & Hs).
  assert (Hr1 : urange1 v = r1) by (subst v; reflexivity).
  assert (Hw' : window_size v = w) by (subst v; reflexivity).
  assert (Hcl : clamped_window_size v = Nat.min w (length r1))
    by (subst v; reflexivity).
  destruct (begin_ok v Hs) as (it & Hb & Hinv & Hrm & Hc);
    [lia | rewrite Hr1; lia |].
  eexists. split.
  - unfold to_list. rewrite Hb. cbn [bind].
    apply collect_increasing; auto; lia.
  - rewrite <- Hcl, <- Hr1.
    assert (Hle : clamped_window_size v <= length (urange1 v))
      by (unfold clamped_window_size; lia).
    replace (S (urng1_iterator it) - clamped_window_size v) with 0 by lia.
    replace (length (urange1 v) - urng1_iterator it)
      with (length (urange1 v) - clamped_window_size v + 1) by lia.
    split; [reflexivity |].
    apply window_at_length. rewrite window_source_length by exact Hs.
    unfold clamped_window_size. lia.
Qed.

Lemma increasing_source_yields_every_window_witness :
  strictly_increasing [1; 3; 4; 8; 9]%N
  /\ to_list (Build_view [1; 3; 4; 8; 9]%N None 2) = Ok [1; 3; 4; 8]%N.
Proof.
  assert (Hincr : strictly_increasing [1; 3; 4; 8; 9]%N).
  { intros i j x y Hij Hi Hj.
    destruct i as [| [| [| [| [| i]]]]]; simpl in Hi;
      try (destruct i; discriminate);
      destruct j as [| [| [| [| [| j]]]]]; simpl in Hj;
      try (destruct j; discriminate); try lia;
      inversion Hi; inversion Hj; subst; reflexivity. }
  split; [exact Hincr |].
  assert (Hw : 0 < 2) by lia.
  assert (Hn : 0 < length [1; 3; 4; 8; 9]%N) by (simpl; lia).
  destruct (increasing_source_yields_every_window [1; 3; 4; 8; 9]%N None 2
              (Build_view [1; 3; 4; 8; 9]%N None 2) eq_refl Hw Hn Hincr)
    as (out & Hrun & Hout & _).
  rewrite Hrun, Hout. reflexivity.
Defined.

(** X13. With window size 1 every value is its own window, so the view
    yields the window values unchanged: the first range itself, or with two
    ranges their position-wise minima. (This is the case the adaptor
    refuses for a single range.) *)
Theorem window_size_one_yields_the_source
    (r1 : list value_type) (r2 : option (list value_type))
    (v : minimiser_view) :
  minimiser_view_ctor r1 r2 1 = Ok v ->
  to_list v = Ok (window_source v)
  /\ (r2 = None -> to_list v = Ok r1)
  /\ is_raise (minimiser_fn r1 1) = true.
Proof.
  intros Hctor.
  apply minimiser_view_ctor_inv in Hctor. destruct Hctor as (Hv & Hs).
  assert (Hr1 : urange1 v = r1) by (subst v; reflexivity).
  assert (Hw : window_size v = 1) by (subst v; reflexivity).
  assert (Hrun : to_list v = Ok (window_source v)).
  { destruct (Nat.eq_dec (length (urange1 v)) 0) as [Hn | Hn].
    - rewrite (to_list_empty v Hn).
      rewrite <- (window_source_length v Hs) in Hn.
      destruct (window_source v); [reflexivity | discriminate].
    - assert (Hcl : clamped_window_size v = 1)
        by (unfold clamped_window_size; lia).
      destruct (begin_ok v Hs) as (it & Hb & Hinv & Hrm & Hc); [lia | lia |].
      unfold to_list. rewrite Hb. cbn [bind].
      rewrite collect_offset_zero; auto; try lia.
      + rewrite Hcl.
        replace (S (urng1_iterator it) - 1) with 0 by lia.
        replace (length (urange1 v) - urng1_iterator it)
          with (length (window_source v))
          by (rewrite window_source_length by exact Hs; lia).
        now rewrite window_at_all.
      + intros it' Hinv' (Hnth & _).
        pose proof (active_window_length v it' Hs Hinv') as Hlen.
        assert (minimiser_position_offset it' < length (window_values it'))
          by (apply nth_error_Some; congruence).
        lia. }
  split; [exact Hrun |]. split; [| reflexivity].
  intros Hnone. rewrite Hrun. subst v r2. reflexivity.
Qed.

Lemma window_size_one_yields_the_source_witness :
  to_list (Build_view reference_source1 None 1) = Ok reference_source1.
Proof.
  exact (proj1 (proj2 (window_size_one_yields_the_source
                         reference_source1 None
                         (Build_view reference_source1 None 1) eq_refl))
           eq_refl).
Defined.

(* ------------------------------------------------------------------------- *)
(** ** The yielded values are the runs of the window minima *)

Lemma fold_left_min_spec (l : list value_type) :
  forall acc,
    (fold_left N.min l acc = acc \/ In (fold_left N.min l acc) l)
    /\ (fold_left N.min l acc <= acc)%N
    /\ Forall (N.le (fold_left N.min l acc)) l.
Proof.
  induction l as [| y l IH]; intros acc; simpl.
  - split; [left; reflexivity | split; [lia | constructor]].
  - destruct (IH (N.min acc y)) as (Hin & Hle & Hall).
    split; [| split].
    + destruct Hin as [He | Hin]; [| right; right; exact Hin].
      destruct (N.min_spec acc y) as [(_ & Hm) | (_ & Hm)]; rewrite Hm in *.
      * left; exact He.
      * right; left. now rewrite He.
    + lia.
    + constructor; [lia | exact Hall].
Qed.

Lemma is_minimum_minimum_of (x : value_type) (l : list value_type) :
  is_minimum x l -> minimum_of l = x.
Proof.
  intros (Hin & Hall). destruct l as [| y l]; [contradiction |].
  unfold minimum_of.
  destruct (fold_left_min_spec l y) as (Hm & Hle & Hml).
  set (m := fold_left N.min l y) in *.
  assert (Hxm : (x <= m)%N).
  { rewrite Forall_forall in Hall. apply Hall.
    destruct Hm as [-> | Hm]; [left; reflexivity | right; exact Hm]. }
  assert (Hmx : (m <= x)%N).
  { destruct Hin as [<- | Hin]; [exact Hle |].
    rewrite Forall_forall in Hml. now apply Hml. }
  lia.
Qed.

Lemma map_seq_constant (f : nat -> value_type) (x : value_type) (n : nat) :
  forall a,
    (forall s, a <= s < a + n -> f s = x) ->
    map f (seq a n) = repeat x n.
Proof.
  induction n as [| n IH]; intros a H; [reflexivity |].
  simpl. rewrite (H a) by lia. f_equal. apply IH. intros s Hs. apply H. lia.
Qed.

Lemma next_minimiser_false_offset (v : minimiser_view)
    (it it' : basic_iterator) :
  next_minimiser v it = Ok (false, it') ->
  minimiser_position_offset it = S (minimiser_position_offset it').
Proof.
  unfold next_minimiser. intros H.
  apply bind_Ok_inv in H. destruct H as (it1 & Hadv & H).
  apply advance_window_inv in Hadv. destruct Hadv as (-> & _).
  destruct (urng1_iterator (advanced v it) =? urng1_sentinel (advanced v it));
    [discriminate |].
  apply bind_Ok_inv in H. destruct H as (x & _ & H).
  apply bind_Ok_inv in H. destruct H as (d & _ & H).
  cbn [minimiser_position_offset minimiser_value set_window_values] in H.
  change (minimiser_position_offset (advanced v it))
    with (minimiser_position_offset it) in H.
  destruct (Nat.eqb_spec (minimiser_position_offset it) 0) as [He | Hne].
  - apply bind_Ok_inv in H. destruct H as (it3 & _ & H). discriminate.
  - destruct (N.ltb x (minimiser_value (advanced v it))); [discriminate |].
    inversion H; subst. cbn. lia.
Qed.

(** An increment slides over at most [offset + 1] windows. *)
Lemma next_unique_minimiser_loop_bound (v : minimiser_view) (fuel : nat) :
  forall it it',
    next_unique_minimiser_loop v fuel it = Ok it' ->
    urng1_iterator it' - urng1_iterator it
    <= S (minimiser_position_offset it).
Proof.
  induction fuel as [| fuel IH]; intros it it' H; simpl in H; [discriminate |].
  apply bind_Ok_inv in H. destruct H as ([b it1] & Hstep & H). simpl in H.
  pose proof (next_minimiser_Ok_inv v it it1 b Hstep) as (Hc & _).
  destruct b.
  - inversion H; subst. lia.
  - apply next_minimiser_false_offset in Hstep.
    apply IH in H. lia.
Qed.

Lemma expand_length_bounds (lo hi : nat) (out : list value_type) :
  forall runs,
    length runs = length out ->
    Forall (fun r => lo <= r <= hi) runs ->
    length out * lo <= length (expand out runs) <= length out * hi.
Proof.
  unfold expand.
  induction out as [| x out IH]; intros [| r runs] Hlen Hall;
    simpl in *; try discriminate; [lia |].
  inversion Hall as [| ? ? Hr Hrest]; subst.
  rewrite length_app, repeat_length.
  specialize (IH runs ltac:(lia) Hrest). lia.
Qed.

Lemma collect_runs (v : minimiser_view) :
  same_size v -> 0 < window_size v ->
  forall fuel it,
    active_inv v it ->
    length (urange1 v) - urng1_iterator it < fuel ->
    exists out runs,
      collect v fuel it = Ok out
      /\ length runs = length out
      /\ Forall (fun r => 1 <= r <= clamped_window_size v) runs
      /\ expand out runs
         = map (fun s =>
                  minimum_of
                    (window_at (window_source v) s (clamped_window_size v)))
             (seq (S (urng1_iterator it) - clamped_window_size v)
                (length (urange1 v) - urng1_iterator it)).
Proof.
  intros Hs Hw. induction fuel as [| fuel IH]; intros it Hinv Hf; [lia |].
  pose proof (inv_cursor v it Hinv) as Hc.
  pose proof (inv_lower v it Hinv) as Hlo.
  simpl collect. rewrite (active_not_at_end v it Hinv).
  destruct (next_unique_minimiser_loop_covers v Hs Hw
              (S (length (urange1 v) - urng1_iterator it)) it Hinv)
    as (it' & Hinc & Hc' & Hres & Hcov); [lia |].
  pose proof (next_unique_minimiser_loop_bound v _ it it' Hinc) as Hbound.
  assert (Hoff : minimiser_position_offset it < clamped_window_size v).
  { rewrite <- (active_window_length v it Hs Hinv).
    destruct (inv_min v it Hinv) as (Hnth & _).
    apply nth_error_Some. congruence. }
  unfold operator_inc, next_unique_minimiser. rewrite Hinc. cbn [bind].
  unfold operator_deref.
  set (a := S (urng1_iterator it) - clamped_window_size v).
  set (f := fun s =>
              minimum_of
                (window_at (window_source v) s (clamped_window_size v))).
  assert (Hrun : forall n,
             urng1_iterator it + n <= urng1_iterator it' ->
             urng1_iterator it + n <= length (urange1 v) ->
             map f (seq a n) = repeat (minimiser_value it) n).
  { intros n Hn1 Hn2. apply map_seq_constant. intros s Hs'.
    unfold f. apply is_minimum_minimum_of.
    replace s with (S (s + clamped_window_size v - 1) - clamped_window_size v)
      by (unfold a in Hs'; lia).
    apply Hcov; unfold a in Hs'; lia. }
  destruct Hres as [Hinv' | (Hex & _)].
  - pose proof (inv_cursor v it' Hinv') as Hlt'.
    destruct (IH it' Hinv') as (out & runs & Hcol & Hlen & Hpos & Hexp);
      [lia |].
    rewrite Hcol. cbn [bind].
    exists (minimiser_value it :: out),
           ((urng1_iterator it' - urng1_iterator it) :: runs).
    split; [reflexivity |]. split; [simpl; lia |].
    split; [constructor; [lia | exact Hpos] |].
    unfold expand. cbn [combine map concat fst snd].
    fold (expand out runs). rewrite Hexp.
    replace (length (urange1 v) - urng1_iterator it)
      with ((urng1_iterator it' - urng1_iterator it)
            + (length (urange1 v) - urng1_iterator it')) by lia.
    rewrite seq_app, map_app. f_equal.
    + symmetry. apply Hrun; lia.
    + fold f. f_equal. f_equal. unfold a. lia.
  - destruct (exhausted_at_end v it' Hex) as (Hend & HcN).
    destruct fuel as [| fuel]; [lia |].
    simpl collect. rewrite Hend. cbn [bind].
    exists [minimiser_value it], [length (urange1 v) - urng1_iterator it].
    split; [reflexivity |]. split; [reflexivity |].
    split; [constructor; [lia | constructor] |].
    unfold expand. cbn [combine map concat fst snd]. rewrite app_nil_r.
    symmetry. apply Hrun; lia.
Qed.

(** X12. The yielded values are a run-length encoding of the sequence of
    all window minima: there are run lengths, one per yielded value, each
    at least 1 and at most [min(w, N)], such that repeating every yielded
    value as often as its run length gives exactly the list of the minima
    of all windows, left to right (window size at least 1, range not
    empty). *)
Theorem yielded_values_encode_window_minima
    (r1 : list value_type) (r2 : option (list value_type)) (w : nat)
    (v : minimiser_view) :
  minimiser_view_ctor r1 r2 w = Ok v ->
  0 < w -> 0 < length r1 ->
  exists out runs,
    to_list v = Ok out
    /\ length runs = length out
    /\ Forall (fun r => 1 <= r <= Nat.min w (length r1)) runs
    /\ expand out runs
       = window_minima (window_source v) (Nat.min w (length r1)).
Proof.
  intros Hctor Hw Hn.
  apply minimiser_view_ctor_inv in Hctor. destruct Hctor as (Hv & Hs).
  assert (Hr1 : urange1 v = r1) by (subst v; reflexivity).
  assert (Hw' : window_size v = w) by (subst v; reflexivity).
  assert (Hcl : clamped_window_size v = Nat.min w (length r1))
    by (subst v; reflexivity).
  destruct (begin_ok v Hs) as (it & Hb & Hinv & _ & Hc);
    [lia | rewrite Hr1; lia |].
  destruct (collect_runs v Hs) with (fuel := S (length (urange1 v)))
                                    (it := it)
    as (out & runs & Hcol & Hlen & Hpos & Hexp); [lia | exact Hinv | lia |].
  exists out, runs. split.
  - unfold to_list. rewrite Hb. exact Hcol.
  - split; [exact Hlen |]. split; [rewrite <- Hcl; exact Hpos |].
    rewrite Hexp. unfold window_minima.
    rewrite window_source_length by exact Hs.
    rewrite <- Hcl.
    assert (Hle : clamped_window_size v <= length (urange1 v))
      by (unfold clamped_window_size; lia).
    f_equal. f_equal; lia.
Qed.

Lemma yielded_values_encode_window_minima_witness :
  exists out runs,
    to_list (Build_view reference_source1 None 4) = Ok out
    /\ length runs = length out
    /\ Forall (fun r => 1 <= r <= 4) runs
    /\ expand out runs = [9; 4; 1; 1; 1; 1]%N.
Proof.
  assert (Hw : 0 < 4) by lia.
  assert (Hn : 0 < length reference_source1) by (simpl; lia).
  destruct (yielded_values_encode_window_minima reference_source1 None 4
              (Build_view reference_source1 None 4) eq_refl Hw Hn)
    as (out & runs & Hrun & Hlen & Hpos & Hexp).
  exists out, runs. repeat split; auto.
Defined.

(** X14. A value is yielded at least once every [min(w, N)] windows and at
    most once per window: with [W = N - min(w, N) + 1] windows, the number
    of yielded values is at most [W] and at least [W / min(w, N)] (window
    size at least 1, range not empty). *)
Theorem number_of_yielded_values
    (r1 : list value_type) (r2 : option (list value_type)) (w : nat)
    (v : minimiser_view) :
  minimiser_view_ctor r1 r2 w = Ok v ->
  0 < w -> 0 < length r1 ->
  exists out,
    to_list v = Ok out
    /\ length out <= length r1 - Nat.min w (length r1) + 1
    /\ length r1 - Nat.min w (length r1) + 1
       <= length out * Nat.min w (length r1).
Proof.
  intros Hctor Hw Hn.
  apply minimiser_view_ctor_inv in Hctor. destruct Hctor as (Hv & Hs).
  assert (Hr1 : urange1 v = r1) by (subst v; reflexivity).
  assert (Hw' : window_size v = w) by (subst v; reflexivity).
  assert (Hcl : clamped_window_size v = Nat.min w (length r1))
    by (subst v; reflexivity).
  destruct (begin_ok v Hs) as (it & Hb & Hinv & _ & Hc);
    [lia | rewrite Hr1; lia |].
  destruct (collect_runs v Hs) with (fuel := S (length (urange1 v)))
                                    (it := it)
    as (out & runs & Hcol & Hlen & Hpos & Hexp); [lia | exact Hinv | lia |].
  exists out. split.
  - unfold to_list. rewrite Hb. exact Hcol.
  - pose proof (expand_length_bounds 1 (clamped_window_size v) out runs
                  Hlen Hpos) as Hb2.
    rewrite Hexp, length_map, length_seq in Hb2.
    assert (Hle : clamped_window_size v <= length (urange1 v))
      by (unfold clamped_window_size; lia).
    rewrite <- Hcl, <- Hr1. lia.
Qed.

Lemma number_of_yielded_values_witness :
  exists out,
    to_list (Build_view reference_source1 None 4) = Ok out
    /\ length out <= 6
    /\ 6 <= length out * 4.
Proof.
  assert (Hw : 0 < 4) by lia.
  assert (Hn : 0 < length reference_source1) by (simpl; lia).
  exact (number_of_yielded_values reference_source1 None 4
           (Build_view reference_source1 None 4) eq_refl Hw Hn).
Defined.
